(** * CreditLineFHE: the encrypted credit-line ledger and its reveal protocol

    A shallow embedding of the Solidity contract [CreditLineFHE] and the
    properties of its aggregation ledger, reveal protocol and access
    control.  Storage is a record, every public function is a computation
    in a small state/log/error monad, and a transaction applies the EVM's
    roll-back on top of that computation. *)

From Stdlib Require Import ZArith String List Lia.
From stdpp Require Import gmap strings list fin_maps.

Open Scope Z_scope.

(** ** Solidity value types *)

(** [address], [uint256], [uint32] and [bytes32] are integers; [bytes] is a
    byte list. *)
Abbreviation address := Z (only parsing).
Abbreviation uint256 := Z (only parsing).
Abbreviation uint32 := Z (only parsing).
Abbreviation bytes32 := Z (only parsing).
Abbreviation bytes := (list Byte.byte) (only parsing).

Definition MAX_UINT256 : Z := 2 ^ 256 - 1.
Definition MAX_UINT64 : Z := 2 ^ 64 - 1.
Definition MAX_UINT32 : Z := 2 ^ 32 - 1.

(** ** The ciphertext capability (library [FHE], external to the contract)

    The contract only uses the operations below.  They are an interface
    here; [PlainFHE] further down is the instance that computes on
    cleartexts. *)
Class FHE := {
  euint32 : Type;
  (** the handle found in a storage slot that was never written *)
  euint32_unset : euint32;
  asEuint32 : Z -> euint32;
  fhe_add : euint32 -> euint32 -> euint32;
  fhe_sub : euint32 -> euint32 -> euint32;
  toBytes32 : euint32 -> bytes32;
  (** [FHE.checkSignatures] reverts unless the proof is valid for the
      request and the cleartexts; [true] means that it returns. *)
  checkSignatures : uint256 -> bytes -> bytes -> bool;
}.

(** A capability is faithful when a decryption exists under which [add] and
    [sub] are addition and subtraction of 32-bit integers. *)
Class FaithfulFHE (F : FHE) := {
  decrypt : euint32 -> Z;
  decrypt_zero : decrypt (asEuint32 0) = 0;
  decrypt_add : forall a b,
    decrypt (fhe_add a b) = (decrypt a + decrypt b) mod 2 ^ 32;
  decrypt_sub : forall a b,
    decrypt (fhe_sub a b) = (decrypt a - decrypt b) mod 2 ^ 32;
}.

(** ** ABI decoding of [uint32[]] *)

Definition byte_val (b : Byte.byte) : Z := Z.of_N (Byte.to_N b).

(** Big-endian value of a byte string. *)
Definition be_value (bs : bytes) : Z :=
  fold_left (fun acc b => acc * 256 + byte_val b) bs 0.

(** The 32-byte word at offset [off]. *)
Definition mload (bs : bytes) (off : Z) : Z :=
  be_value (take 32 (drop (Z.to_nat off) bs)).

(** [abi.decode(data, (uint32[]))]: a head word with the offset of the
    array, at that offset the length, then one word per element, each of
    which must fit 32 bits.  [None] stands for every way the decoder
    reverts. *)
Definition abi_decode_uint32_array (data : bytes) : option (list uint32) :=
  let dataEnd := Z.of_nat (length data) in
  if dataEnd <? 32 then None else
  let offset := mload data 0 in
  if offset >? MAX_UINT64 then None else
  if negb (offset + 31 <? dataEnd) then None else
  let len := mload data offset in
  if len >? MAX_UINT64 then None else
  let src := offset + 32 in
  if src + len * 32 >? dataEnd then None else
  let elems :=
    map (fun i => mload data (src + 32 * Z.of_nat i)) (seq 0 (Z.to_nat len)) in
  if forallb (fun v => v <=? MAX_UINT32) elems then Some elems else None.

(** [results[i]] on a memory array. *)
Definition index (results : list uint32) (i : nat) : option uint32 :=
  results !! i.

(** ** Storage *)

Section Contract.
Context {F : FHE}.

Record EncryptedCreditLine := {
  lineId : uint256;
  bankAddress : address;
  encryptedAmount : euint32;
  encryptedUtilized : euint32;
  timestamp : uint256;
  isActive : bool;
}.

Record AggregatedResult := {
  totalAvailable : uint32;
  totalUtilized : uint32;
  isRevealed : bool;
}.

Record Storage := {
  lineCount : uint256;
  encryptedLines : gmap Z EncryptedCreditLine;
  aggregatedResult : AggregatedResult;
  encryptedTotalAvailable : euint32;
  encryptedTotalUtilized : euint32;
  aggregator : address;
  enterprise : address;
  requestToAggregationId : gmap Z Z;
}.

(** What a mapping returns at a key that was never written. *)
Definition zero_line : EncryptedCreditLine :=
  {| lineId := 0; bankAddress := 0; encryptedAmount := euint32_unset;
     encryptedUtilized := euint32_unset; timestamp := 0; isActive := false |}.

Definition line_at (s : Storage) (id : uint256) : EncryptedCreditLine :=
  default zero_line (encryptedLines s !! id).

Definition request_at (s : Storage) (reqId : uint256) : uint256 :=
  default 0 (requestToAggregationId s !! reqId).

(** Storage before the constructor runs. *)
Definition zero_storage : Storage :=
  {| lineCount := 0; encryptedLines := ∅;
     aggregatedResult := {| totalAvailable := 0; totalUtilized := 0; isRevealed := false |};
     encryptedTotalAvailable := euint32_unset;
     encryptedTotalUtilized := euint32_unset;
     aggregator := 0; enterprise := 0; requestToAggregationId := ∅ |}.

(** Field updates. *)
Definition set_lineCount (v : uint256) (s : Storage) : Storage :=
  {| lineCount := v; encryptedLines := encryptedLines s;
     aggregatedResult := aggregatedResult s;
     encryptedTotalAvailable := encryptedTotalAvailable s;
     encryptedTotalUtilized := encryptedTotalUtilized s;
     aggregator := aggregator s; enterprise := enterprise s;
     requestToAggregationId := requestToAggregationId s |}.

Definition set_line (id : uint256) (l : EncryptedCreditLine) (s : Storage) : Storage :=
  {| lineCount := lineCount s; encryptedLines := <[id := l]> (encryptedLines s);
     aggregatedResult := aggregatedResult s;
     encryptedTotalAvailable := encryptedTotalAvailable s;
     encryptedTotalUtilized := encryptedTotalUtilized s;
     aggregator := aggregator s; enterprise := enterprise s;
     requestToAggregationId := requestToAggregationId s |}.

Definition set_aggregatedResult (r : AggregatedResult) (s : Storage) : Storage :=
  {| lineCount := lineCount s; encryptedLines := encryptedLines s;
     aggregatedResult := r;
     encryptedTotalAvailable := encryptedTotalAvailable s;
     encryptedTotalUtilized := encryptedTotalUtilized s;
     aggregator := aggregator s; enterprise := enterprise s;
     requestToAggregationId := requestToAggregationId s |}.

Definition set_encryptedTotalAvailable (c : euint32) (s : Storage) : Storage :=
  {| lineCount := lineCount s; encryptedLines := encryptedLines s;
     aggregatedResult := aggregatedResult s;
     encryptedTotalAvailable := c;
     encryptedTotalUtilized := encryptedTotalUtilized s;
     aggregator := aggregator s; enterprise := enterprise s;
     requestToAggregationId := requestToAggregationId s |}.

Definition set_encryptedTotalUtilized (c : euint32) (s : Storage) : Storage :=
  {| lineCount := lineCount s; encryptedLines := encryptedLines s;
     aggregatedResult := aggregatedResult s;
     encryptedTotalAvailable := encryptedTotalAvailable s;
     encryptedTotalUtilized := c;
     aggregator := aggregator s; enterprise := enterprise s;
     requestToAggregationId := requestToAggregationId s |}.

Definition set_aggregator (a : address) (s : Storage) : Storage :=
  {| lineCount := lineCount s; encryptedLines := encryptedLines s;
     aggregatedResult := aggregatedResult s;
     encryptedTotalAvailable := encryptedTotalAvailable s;
     encryptedTotalUtilized := encryptedTotalUtilized s;
     aggregator := a; enterprise := enterprise s;
     requestToAggregationId := requestToAggregationId s |}.

Definition set_enterprise (a : address) (s : Storage) : Storage :=
  {| lineCount := lineCount s; encryptedLines := encryptedLines s;
     aggregatedResult := aggregatedResult s;
     encryptedTotalAvailable := encryptedTotalAvailable s;
     encryptedTotalUtilized := encryptedTotalUtilized s;
     aggregator := aggregator s; enterprise := a;
     requestToAggregationId := requestToAggregationId s |}.

Definition set_request (reqId v : uint256) (s : Storage) : Storage :=
  {| lineCount := lineCount s; encryptedLines := encryptedLines s;
     aggregatedResult := aggregatedResult s;
     encryptedTotalAvailable := encryptedTotalAvailable s;
     encryptedTotalUtilized := encryptedTotalUtilized s;
     aggregator := aggregator s; enterprise := enterprise s;
     requestToAggregationId := <[reqId := v]> (requestToAggregationId s) |}.

Definition deactivated (l : EncryptedCreditLine) : EncryptedCreditLine :=
  {| lineId := lineId l; bankAddress := bankAddress l;
     encryptedAmount := encryptedAmount l;
     encryptedUtilized := encryptedUtilized l;
     timestamp := timestamp l; isActive := false |}.

(** ** Execution monad *)

(** What a call leaves outside storage: the events it emits and the
    decryption request it hands to the oracle. *)
Inductive Effect :=
| CreditLineAdded (id : uint256) (bank : address)
| AggregationRequested
| AggregationCompleted (available utilized : uint32)
| DecryptionRequest (ciphertexts : list bytes32) (callback : string).

Inductive Error :=
| Require (msg : string)      (* a failed [require] *)
| Panic (code : Z)            (* arithmetic overflow 0x11, index out of range 0x32 *)
| InvalidSignatures           (* [FHE.checkSignatures] reverted *)
| AbiDecode.                  (* [abi.decode] reverted *)

(** A computation runs on a storage and returns the storage it reached, the
    effects so far and a value or an error.  Nothing is rolled back here:
    on an error the storage is the one at the point of failure. *)
Definition Exec (A : Type) : Type :=
  Storage -> Storage * list Effect * (Error + A).

Definition ret {A} (a : A) : Exec A := fun s => (s, [], inr a).

Definition bind {A B} (m : Exec A) (f : A -> Exec B) : Exec B :=
  fun s =>
    match m s with
    | (s1, l1, inr a) =>
        match f a s1 with (s2, l2, r) => (s2, l1 ++ l2, r) end
    | (s1, l1, inl e) => (s1, l1, inl e)
    end.

Definition throw {A} (e : Error) : Exec A := fun s => (s, [], inl e).
Definition gets {A} (f : Storage -> A) : Exec A := fun s => (s, [], inr (f s)).
Definition modify (f : Storage -> Storage) : Exec unit := fun s => (f s, [], inr tt).
Definition emit (e : Effect) : Exec unit := fun s => (s, [e], inr tt).

Definition require (b : bool) (msg : string) : Exec unit :=
  if b then ret tt else throw (Require msg).

Definition lift_option {A} (o : option A) (e : Error) : Exec A :=
  match o with Some a => ret a | None => throw e end.

(** Checked [uint256] addition. *)
Definition checked_add (a b : uint256) : Exec uint256 :=
  if a + b >? MAX_UINT256 then throw (Panic 17) else ret (a + b).

End Contract.

Notation "'let!' x ':=' m 'in' k" := (bind m (fun x => k))
  (at level 10, x name, m at level 100, k at level 200).
Notation "'do!' m 'in' k" := (bind m (fun _ => k))
  (at level 10, m at level 100, k at level 200).

(** ** The contract *)

Section Functions.
Context {F : FHE}.

(** What the EVM supplies to a call. *)
Record Env := {
  msg_sender : address;
  block_timestamp : uint256;
}.

Definition onlyAggregator (env : Env) : Exec unit :=
  let! a := gets aggregator in
  require (msg_sender env =? a) "Caller not authorized".

Definition onlyEnterprise (env : Env) : Exec unit :=
  let! e := gets enterprise in
  require (msg_sender env =? e) "Enterprise only".

Definition constructor (env : Env) (_enterprise : address) : Exec unit :=
  do! modify (set_aggregator (msg_sender env)) in
  do! modify (set_enterprise _enterprise) in
  do! modify (set_encryptedTotalAvailable (asEuint32 0)) in
  modify (set_encryptedTotalUtilized (asEuint32 0)).

(** [line] is a storage reference: its fields are read where they are used. *)
Definition _updateAggregatedTotals (lineId : uint256) : Exec unit :=
  let! ta := gets encryptedTotalAvailable in
  let! amount := gets (fun s => encryptedAmount (line_at s lineId)) in
  do! modify (set_encryptedTotalAvailable (fhe_add ta amount)) in
  let! tu := gets encryptedTotalUtilized in
  let! utilized := gets (fun s => encryptedUtilized (line_at s lineId)) in
  modify (set_encryptedTotalUtilized (fhe_add tu utilized)).

Definition addEncryptedCreditLine (env : Env) (bank : address)
    (amount utilized : euint32) : Exec unit :=
  do! onlyAggregator env in
  let! c := gets lineCount in
  let! c1 := checked_add c 1 in
  do! modify (set_lineCount c1) in
  let! newLineId := gets lineCount in
  do! modify (set_line newLineId
        {| lineId := newLineId; bankAddress := bank;
           encryptedAmount := amount; encryptedUtilized := utilized;
           timestamp := block_timestamp env; isActive := true |}) in
  do! _updateAggregatedTotals newLineId in
  emit (CreditLineAdded newLineId bank).

(** [FHE.requestDecryption]: hands the ciphertexts and the callback to the
    decryption oracle and returns the request id the oracle chose. *)
Definition requestDecryption (oracleId : uint256) (ciphertexts : list bytes32)
    (callback : string) : Exec uint256 :=
  do! emit (DecryptionRequest ciphertexts callback) in
  ret oracleId.

(** [oracleId] is the request id that the oracle assigns in this call. *)
Definition requestAggregation (env : Env) (oracleId : uint256) : Exec unit :=
  do! onlyEnterprise env in
  let! r := gets aggregatedResult in
  do! require (negb (isRevealed r)) "Already revealed" in
  let! ta := gets encryptedTotalAvailable in
  let! tu := gets encryptedTotalUtilized in
  let ciphertexts := [toBytes32 ta; toBytes32 tu] in
  let! reqId := requestDecryption oracleId ciphertexts "handleAggregationResult" in
  do! modify (set_request reqId 1) in
  emit AggregationRequested.

Definition handleAggregationResult (requestId : uint256)
    (cleartexts proof : bytes) : Exec unit :=
  let! a := gets (fun s => request_at s requestId) in
  do! require (a =? 1) "Invalid request" in
  let! r := gets aggregatedResult in
  do! require (negb (isRevealed r)) "Already revealed" in
  do! (if checkSignatures requestId cleartexts proof
       then ret tt else throw InvalidSignatures) in
  let! results := lift_option (abi_decode_uint32_array cleartexts) AbiDecode in
  let! r0 := lift_option (index results 0) (Panic 50) in
  let! r1 := lift_option (index results 1) (Panic 50) in
  do! modify (set_aggregatedResult
        {| totalAvailable := r0; totalUtilized := r1; isRevealed := true |}) in
  let! e0 := lift_option (index results 0) (Panic 50) in
  let! e1 := lift_option (index results 1) (Panic 50) in
  emit (AggregationCompleted e0 e1).

Definition getAggregationResult (env : Env) : Exec (uint32 * uint32 * bool) :=
  do! onlyEnterprise env in
  let! r := gets aggregatedResult in
  ret (totalAvailable r, totalUtilized r, isRevealed r).

Definition deactivateCreditLine (env : Env) (lineId : uint256) : Exec unit :=
  do! onlyAggregator env in
  let! active := gets (fun s => isActive (line_at s lineId)) in
  do! require active "Line already inactive" in
  let! ta := gets encryptedTotalAvailable in
  let! amount := gets (fun s => encryptedAmount (line_at s lineId)) in
  do! modify (set_encryptedTotalAvailable (fhe_sub ta amount)) in
  let! tu := gets encryptedTotalUtilized in
  let! utilized := gets (fun s => encryptedUtilized (line_at s lineId)) in
  do! modify (set_encryptedTotalUtilized (fhe_sub tu utilized)) in
  modify (fun s => set_line lineId (deactivated (line_at s lineId)) s).

Definition getCreditLineInfo (env : Env) (lineId : uint256)
    : Exec (address * uint256 * bool) :=
  do! onlyEnterprise env in
  let! line := gets (fun s => line_at s lineId) in
  ret (bankAddress line, timestamp line, isActive line).

Definition transferEnterpriseOwnership (env : Env) (newEnterprise : address)
    : Exec unit :=
  do! onlyEnterprise env in
  modify (set_enterprise newEnterprise).

(** ** Transactions *)

(** The EVM runs a call as a transaction: when the call fails, storage is
    restored and the effects are dropped. *)
Inductive Receipt (A : Type) :=
| Success (effects : list Effect) (value : A)
| Reverted (e : Error).
Global Arguments Success {A} effects value.
Global Arguments Reverted {A} e.

Definition transact {A} (m : Exec A) (s : Storage) : Storage * Receipt A :=
  match m s with
  | (s', l, inr a) => (s', Success l a)
  | (_, _, inl e) => (s, Reverted e)
  end.

(** The external calls of the contract. *)
Inductive Call :=
| AddEncryptedCreditLine (bank : address) (amount utilized : euint32)
| RequestAggregation (oracleId : uint256)
| HandleAggregationResult (requestId : uint256) (cleartexts proof : bytes)
| GetAggregationResult
| DeactivateCreditLine (lineId : uint256)
| GetCreditLineInfo (lineId : uint256)
| TransferEnterpriseOwnership (newEnterprise : address).

Definition void {A} (m : Exec A) : Exec unit := do! m in ret tt.

Definition dispatch (env : Env) (c : Call) : Exec unit :=
  match c with
  | AddEncryptedCreditLine b a u => addEncryptedCreditLine env b a u
  | RequestAggregation o => requestAggregation env o
  | HandleAggregationResult r ct pf => handleAggregationResult r ct pf
  | GetAggregationResult => void (getAggregationResult env)
  | DeactivateCreditLine id => deactivateCreditLine env id
  | GetCreditLineInfo id => void (getCreditLineInfo env id)
  | TransferEnterpriseOwnership e => transferEnterpriseOwnership env e
  end.

Definition step (env : Env) (c : Call) (s : Storage) : Storage :=
  fst (transact (dispatch env c) s).

(** A trace of calls, first call first. *)
Fixpoint run (tr : list (Env * Call)) (s : Storage) : Storage :=
  match tr with
  | [] => s
  | (env, c) :: tr' => run tr' (step env c s)
  end.

Definition deploy (env : Env) (_enterprise : address) : Storage :=
  fst (fst (constructor env _enterprise zero_storage)).

Inductive reachable : Storage -> Prop :=
| reachable_deploy env _enterprise : reachable (deploy env _enterprise)
| reachable_step s env c : reachable s -> reachable (step env c s).

End Functions.

(** ** A capability that computes on cleartexts *)

Definition byte_of (v : Z) : Byte.byte :=
  default Byte.x00 (Byte.of_N (Z.to_N (v mod 256))).

(** The 32-byte big-endian word of [v]. *)
Definition word_bytes (v : Z) : bytes :=
  map (fun i => byte_of (v / 256 ^ (31 - Z.of_nat i))) (seq 0 32).

(** [abi.encode(values)] for [uint32[] values]. *)
Definition abi_encode_uint32_array (values : list uint32) : bytes :=
  word_bytes 32 ++ word_bytes (Z.of_nat (length values))
    ++ concat (map word_bytes values).

(** The proof that the cleartext oracle attaches to a request and its
    cleartexts. *)
Definition plain_sign (requestId : uint256) (cleartexts : bytes) : bytes :=
  byte_of requestId :: cleartexts.

Definition bytes_eqb (a b : bytes) : bool :=
  bool_decide (map byte_val a = map byte_val b).

#[export] Instance PlainFHE : FHE := {|
  euint32 := Z;
  euint32_unset := 0;
  asEuint32 v := v mod 2 ^ 32;
  fhe_add a b := (a + b) mod 2 ^ 32;
  fhe_sub a b := (a - b) mod 2 ^ 32;
  toBytes32 c := c;
  checkSignatures r ct pf := bytes_eqb pf (plain_sign r ct);
|}.

#[export] Instance PlainFHE_faithful : FaithfulFHE PlainFHE := {|
  decrypt (c : @euint32 PlainFHE) := c;
  decrypt_zero := eq_refl;
  decrypt_add a b := eq_refl;
  decrypt_sub a b := eq_refl;
|}.

Definition aggregator0 : address := 1001.
Definition enterprise0 : address := 2002.
Definition by_aggregator : Env := {| msg_sender := aggregator0; block_timestamp := 1700000000 |}.
Definition by_enterprise : Env := {| msg_sender := enterprise0; block_timestamp := 1700000100 |}.
Definition by_stranger : Env := {| msg_sender := 3003; block_timestamp := 1700000200 |}.

Definition s0 : Storage := deploy by_aggregator enterprise0.

Definition cleartexts_800_150 : bytes := abi_encode_uint32_array [800; 150].

Definition scenario : list (Env * Call) :=
  [ (by_aggregator, AddEncryptedCreditLine 11 500 100);
    (by_aggregator, AddEncryptedCreditLine 12 300 50);
    (by_enterprise, RequestAggregation 7);
    (by_stranger, HandleAggregationResult 7 cleartexts_800_150
                     (plain_sign 7 cleartexts_800_150)) ].

(** ** Proof support *)

Ltac unfold_exec :=
  unfold dispatch, void, addEncryptedCreditLine, _updateAggregatedTotals,
    requestAggregation, requestDecryption, handleAggregationResult,
    getAggregationResult, deactivateCreditLine, getCreditLineInfo,
    transferEnterpriseOwnership, onlyAggregator, onlyEnterprise,
    checked_add, require, lift_option, bind, ret, throw, gets, modify, emit in *.

Ltac break_step :=
  match goal with
  | H : context [if ?b then _ else _] |- _ => destruct b eqn:?
  | H : context [match ?o with Some _ => _ | None => _ end] |- _ => destruct o eqn:?
  | |- context [if ?b then _ else _] => destruct b eqn:?
  | |- context [match ?o with Some _ => _ | None => _ end] => destruct o eqn:?
  end.

Ltac exec_cases := unfold_exec; repeat (break_step; try discriminate).

(** ** What each call does *)

Section Calls.
Context {F : FHE}.

Lemma Zeqb_self (a b : Z) : a = b -> (a =? b) = true.
Proof. intros ->. apply Z.eqb_refl. Qed.

Lemma Zeqb_other (a b : Z) : a <> b -> (a =? b) = false.
Proof. intros H. apply Z.eqb_neq, H. Qed.

Lemma Zgtb_le (a b : Z) : a <= b -> (a >? b) = false.
Proof. intros H. rewrite Z.gtb_ltb. apply Z.ltb_ge, H. Qed.

Lemma Zgtb_gt (a b : Z) : a > b -> (a >? b) = true.
Proof. intros H. rewrite Z.gtb_ltb. apply Z.ltb_lt. lia. Qed.

(** A failing call has written nothing and emitted nothing at the point
    where it fails. *)
Lemma dispatch_failure env c s s' l e :
  dispatch env c s = (s', l, inl e) -> s' = s /\ l = [].
Proof.
  destruct c; intros H; exec_cases; inversion H; subst; auto.
Qed.

Lemma step_failure env c s s' l e :
  dispatch env c s = (s', l, inl e) -> step env c s = s.
Proof. intros H. unfold step, transact. rewrite H. reflexivity. Qed.

Lemma step_success env c s s' l :
  dispatch env c s = (s', l, inr tt) -> step env c s = s'.
Proof. intros H. unfold step, transact. rewrite H. reflexivity. Qed.

(** Either a call fails and the step keeps the storage, or the step yields
    the storage the call reached. *)
Lemma step_cases env c s :
  (exists e, dispatch env c s = (s, [], inl e) /\ step env c s = s) \/
  (exists l, dispatch env c s = (step env c s, l, inr tt)).
Proof.
  destruct (dispatch env c s) as [[s' l] [e | []]] eqn:H.
  - left. exists e. destruct (dispatch_failure _ _ _ _ _ _ H) as [-> ->].
    split; [reflexivity | eapply step_failure, H].
  - right. exists l. rewrite (step_success _ _ _ _ _ H). reflexivity.
Qed.

(** *** Access control *)

Lemma onlyAggregator_rejects env s :
  msg_sender env <> aggregator s ->
  onlyAggregator env s = (s, [], inl (Require "Caller not authorized")).
Proof.
  intros H. unfold onlyAggregator, bind, gets, require.
  rewrite (Zeqb_other _ _ H). reflexivity.
Qed.

Lemma onlyEnterprise_rejects env s :
  msg_sender env <> enterprise s ->
  onlyEnterprise env s = (s, [], inl (Require "Enterprise only")).
Proof.
  intros H. unfold onlyEnterprise, bind, gets, require.
  rewrite (Zeqb_other _ _ H). reflexivity.
Qed.

Lemma bind_failure {A B} (m : Exec A) (k : A -> Exec B) s s' l e :
  m s = (s', l, inl e) -> bind m k s = (s', l, inl e).
Proof. intros H. unfold bind. rewrite H. reflexivity. Qed.

(** *** requestAggregation *)

Definition decryption_request (s : Storage) : Effect :=
  DecryptionRequest
    [toBytes32 (encryptedTotalAvailable s); toBytes32 (encryptedTotalUtilized s)]
    "handleAggregationResult".

Lemma requestAggregation_ok env o s :
  msg_sender env = enterprise s ->
  isRevealed (aggregatedResult s) = false ->
  requestAggregation env o s =
    (set_request o 1 s, [decryption_request s; AggregationRequested], inr tt).
Proof.
  intros Hs Hr. unfold_exec. rewrite (Zeqb_self _ _ Hs), Hr. reflexivity.
Qed.

Lemma requestAggregation_inv env o s s' l :
  requestAggregation env o s = (s', l, inr tt) ->
  msg_sender env = enterprise s /\ isRevealed (aggregatedResult s) = false /\
  s' = set_request o 1 s.
Proof.
  intros H. exec_cases. inversion H; subst.
  repeat split; auto using Z.eqb_eq.
  - apply Z.eqb_eq. assumption.
  - destruct (isRevealed (aggregatedResult s)); [discriminate | reflexivity].
Qed.

Lemma request_at_set_request o s : request_at (set_request o 1 s) o = 1.
Proof. unfold request_at, set_request. simpl. rewrite lookup_insert_eq. reflexivity. Qed.

Lemma request_at_set_request_keep o r s :
  request_at s r = 1 -> request_at (set_request o 1 s) r = 1.
Proof.
  unfold request_at, set_request. simpl. intros H.
  destruct (decide (o = r)) as [-> | Hne].
  - rewrite lookup_insert_eq. reflexivity.
  - rewrite lookup_insert_ne by assumption. exact H.
Qed.

(** *** handleAggregationResult *)

Definition published (a u : uint32) : AggregatedResult :=
  {| totalAvailable := a; totalUtilized := u; isRevealed := true |}.

Lemma handleAggregationResult_ok r ct pf s a u rest :
  request_at s r = 1 ->
  isRevealed (aggregatedResult s) = false ->
  checkSignatures r ct pf = true ->
  abi_decode_uint32_array ct = Some (a :: u :: rest) ->
  handleAggregationResult r ct pf s =
    (set_aggregatedResult (published a u) s, [AggregationCompleted a u], inr tt).
Proof.
  intros H1 H2 H3 H4. unfold_exec. rewrite H1; simpl. rewrite H2; simpl.
  rewrite H3, H4. reflexivity.
Qed.

Lemma handleAggregationResult_revealed r ct pf s :
  request_at s r = 1 ->
  isRevealed (aggregatedResult s) = true ->
  handleAggregationResult r ct pf s = (s, [], inl (Require "Already revealed")).
Proof. intros H1 H2. unfold_exec. rewrite H1; simpl. rewrite H2. reflexivity. Qed.

Lemma handleAggregationResult_bad_proof r ct pf s :
  request_at s r = 1 ->
  isRevealed (aggregatedResult s) = false ->
  checkSignatures r ct pf = false ->
  handleAggregationResult r ct pf s = (s, [], inl InvalidSignatures).
Proof.
  intros H1 H2 H3. unfold_exec. rewrite H1; simpl. rewrite H2; simpl.
  rewrite H3. reflexivity.
Qed.

Lemma handleAggregationResult_inv r ct pf s s' l :
  handleAggregationResult r ct pf s = (s', l, inr tt) ->
  exists a u rest,
    request_at s r = 1 /\ isRevealed (aggregatedResult s) = false /\
    checkSignatures r ct pf = true /\
    abi_decode_uint32_array ct = Some (a :: u :: rest) /\
    s' = set_aggregatedResult (published a u) s /\
    l = [AggregationCompleted a u].
Proof.
  intros H.
  destruct (Z.eq_dec (request_at s r) 1) as [H1 | H1].
  2: { unfold_exec. rewrite (Zeqb_other _ _ H1) in H. discriminate. }
  destruct (isRevealed (aggregatedResult s)) eqn:H2.
  { rewrite handleAggregationResult_revealed in H by assumption. discriminate. }
  destruct (checkSignatures r ct pf) eqn:H3.
  2: { rewrite handleAggregationResult_bad_proof in H by assumption.
       discriminate. }
  destruct (abi_decode_uint32_array ct) as [[| a [| u rest]] |] eqn:H4.
  1,2,4: unfold_exec; rewrite H1 in H; simpl in H; rewrite H2 in H; simpl in H;
       rewrite H3, H4 in H; discriminate.
  rewrite (handleAggregationResult_ok r ct pf s a u rest) in H by assumption.
  inversion H; subst. exists a, u, rest. repeat split; assumption.
Qed.

(** An issued request id is never answered with "Invalid request". *)
Lemma handleAggregationResult_known r ct pf s s' l :
  request_at s r = 1 ->
  handleAggregationResult r ct pf s <> (s', l, inl (Require "Invalid request")).
Proof.
  intros H1 H. unfold_exec. rewrite H1 in H. simpl in H.
  repeat break_step; inversion H.
Qed.

(** *** deactivateCreditLine *)

Lemma deactivateCreditLine_inactive env id s :
  msg_sender env = aggregator s ->
  isActive (line_at s id) = false ->
  deactivateCreditLine env id s = (s, [], inl (Require "Line already inactive")).
Proof.
  intros Hs Ha. unfold_exec. rewrite (Zeqb_self _ _ Hs); simpl.
  rewrite Ha. reflexivity.
Qed.

Lemma line_at_unknown s id :
  encryptedLines s !! id = None -> isActive (line_at s id) = false.
Proof. intros H. unfold line_at. rewrite H. reflexivity. Qed.

Lemma line_at_known s id l :
  encryptedLines s !! id = Some l -> line_at s id = l.
Proof. intros H. unfold line_at. rewrite H. reflexivity. Qed.

(** *** addEncryptedCreditLine and deactivateCreditLine in closed form *)

Definition new_line (env : Env) (bank : address) (amount utilized : euint32)
    (id : uint256) : EncryptedCreditLine :=
  {| lineId := id; bankAddress := bank; encryptedAmount := amount;
     encryptedUtilized := utilized; timestamp := block_timestamp env;
     isActive := true |}.

Definition after_add (env : Env) (bank : address) (amount utilized : euint32)
    (s : Storage) : Storage :=
  {| lineCount := lineCount s + 1;
     encryptedLines :=
       <[lineCount s + 1 := new_line env bank amount utilized (lineCount s + 1)]>
         (encryptedLines s);
     aggregatedResult := aggregatedResult s;
     encryptedTotalAvailable := fhe_add (encryptedTotalAvailable s) amount;
     encryptedTotalUtilized := fhe_add (encryptedTotalUtilized s) utilized;
     aggregator := aggregator s; enterprise := enterprise s;
     requestToAggregationId := requestToAggregationId s |}.

Definition after_deactivate (id : uint256) (s : Storage) : Storage :=
  {| lineCount := lineCount s;
     encryptedLines := <[id := deactivated (line_at s id)]> (encryptedLines s);
     aggregatedResult := aggregatedResult s;
     encryptedTotalAvailable :=
       fhe_sub (encryptedTotalAvailable s) (encryptedAmount (line_at s id));
     encryptedTotalUtilized :=
       fhe_sub (encryptedTotalUtilized s) (encryptedUtilized (line_at s id));
     aggregator := aggregator s; enterprise := enterprise s;
     requestToAggregationId := requestToAggregationId s |}.

Lemma addEncryptedCreditLine_ok env b a u s :
  msg_sender env = aggregator s ->
  lineCount s + 1 <= MAX_UINT256 ->
  addEncryptedCreditLine env b a u s =
    (after_add env b a u s, [CreditLineAdded (lineCount s + 1) b], inr tt).
Proof.
  intros Hs Hc. unfold_exec. rewrite (Zeqb_self _ _ Hs); simpl.
  replace (lineCount s + 1 >? MAX_UINT256) with false
    by (symmetry; apply Zgtb_le; assumption).
  simpl. unfold line_at, after_add, new_line, set_encryptedTotalUtilized; simpl.
  rewrite lookup_insert_eq. reflexivity.
Qed.

Lemma addEncryptedCreditLine_inv env b a u s s' l :
  addEncryptedCreditLine env b a u s = (s', l, inr tt) ->
  msg_sender env = aggregator s /\ lineCount s + 1 <= MAX_UINT256 /\
  s' = after_add env b a u s.
Proof.
  intros H.
  destruct (Z.eq_dec (msg_sender env) (aggregator s)) as [Hs | Hs].
  2: { unfold addEncryptedCreditLine in H.
       rewrite (bind_failure _ _ _ _ _ _ (onlyAggregator_rejects _ _ Hs)) in H.
       discriminate. }
  destruct (Z_le_gt_dec (lineCount s + 1) MAX_UINT256) as [Hc | Hc].
  - rewrite addEncryptedCreditLine_ok in H by assumption.
    inversion H; subst. auto.
  - unfold_exec. rewrite (Zeqb_self _ _ Hs) in H; simpl in H.
    replace (lineCount s + 1 >? MAX_UINT256) with true in H
      by (symmetry; apply Zgtb_gt; assumption).
    discriminate.
Qed.

Lemma deactivateCreditLine_ok env id s :
  msg_sender env = aggregator s ->
  isActive (line_at s id) = true ->
  deactivateCreditLine env id s = (after_deactivate id s, [], inr tt).
Proof.
  intros Hs Ha. unfold_exec. rewrite (Zeqb_self _ _ Hs); simpl.
  rewrite Ha. reflexivity.
Qed.

Lemma deactivateCreditLine_inv env id s s' l :
  deactivateCreditLine env id s = (s', l, inr tt) ->
  msg_sender env = aggregator s /\ isActive (line_at s id) = true /\
  s' = after_deactivate id s.
Proof.
  intros H.
  destruct (Z.eq_dec (msg_sender env) (aggregator s)) as [Hs | Hs].
  2: { unfold deactivateCreditLine in H.
       rewrite (bind_failure _ _ _ _ _ _ (onlyAggregator_rejects _ _ Hs)) in H.
       discriminate. }
  destruct (isActive (line_at s id)) eqn:Ha.
  - rewrite deactivateCreditLine_ok in H by assumption. inversion H; auto.
  - rewrite deactivateCreditLine_inactive in H by assumption. discriminate.
Qed.

(** *** What a step keeps *)

Lemma step_keeps_published env c s :
  isRevealed (aggregatedResult s) = true ->
  aggregatedResult (step env c s) = aggregatedResult s.
Proof.
  intros H. unfold step, transact.
  destruct c; exec_cases; simpl; try reflexivity;
    rewrite H in *; discriminate.
Qed.

Lemma run_keeps_published tr : forall s,
  isRevealed (aggregatedResult s) = true ->
  aggregatedResult (run tr s) = aggregatedResult s.
Proof.
  induction tr as [| [env c] tr IH]; intros s H; simpl; [reflexivity |].
  rewrite IH; rewrite step_keeps_published by assumption; auto.
Qed.

Lemma step_keeps_request env c s r :
  request_at s r = 1 -> request_at (step env c s) r = 1.
Proof.
  intros H. unfold step, transact.
  destruct c; exec_cases; simpl; try assumption.
  apply request_at_set_request_keep, H.
Qed.

Lemma run_keeps_request tr : forall s r,
  request_at s r = 1 -> request_at (run tr s) r = 1.
Proof.
  induction tr as [| [env c] tr IH]; intros s r H; simpl; [assumption |].
  apply IH, step_keeps_request, H.
Qed.

End Calls.

(** ** The aggregation ledger *)

Section Ledger.
Context {F : FHE} {HF : FaithfulFHE F}.

(** What a record adds to a total: its value while active, nothing after. *)
Definition contribution (f : EncryptedCreditLine -> Z) (l : EncryptedCreditLine) : Z :=
  if isActive l then f l else 0.

(** Sum of [f] over the records with [isActive = true]. *)
Definition sum_active (f : EncryptedCreditLine -> Z)
    (m : gmap Z EncryptedCreditLine) : Z :=
  map_fold (fun _ l acc => contribution f l + acc) 0 m.

Definition clear_amount (l : EncryptedCreditLine) : Z := decrypt (encryptedAmount l).
Definition clear_utilized (l : EncryptedCreditLine) : Z := decrypt (encryptedUtilized l).

(** The accumulators are the homomorphic sums over the active records:
    they decrypt to the sums of the decrypted amounts in 32-bit arithmetic. *)
Definition totals_match (s : Storage) : Prop :=
  decrypt (encryptedTotalAvailable s)
    = sum_active clear_amount (encryptedLines s) mod 2 ^ 32 /\
  decrypt (encryptedTotalUtilized s)
    = sum_active clear_utilized (encryptedLines s) mod 2 ^ 32.

(** Record ids are the numbers handed out so far. *)
Definition ids_allocated (s : Storage) : Prop :=
  0 <= lineCount s /\
  forall id l, encryptedLines s !! id = Some l -> 1 <= id <= lineCount s.

Lemma sum_active_empty f : sum_active f ∅ = 0.
Proof. unfold sum_active. apply map_fold_empty. Qed.

Lemma sum_active_insert f (m : gmap Z EncryptedCreditLine) i l :
  m !! i = None ->
  sum_active f (<[i := l]> m) = contribution f l + sum_active f m.
Proof.
  intros H. unfold sum_active.
  rewrite map_fold_insert_L; [reflexivity | intros; lia | assumption].
Qed.

Lemma sum_active_delete f (m : gmap Z EncryptedCreditLine) i l :
  m !! i = Some l ->
  sum_active f m = contribution f l + sum_active f (delete i m).
Proof.
  intros H. unfold sum_active.
  rewrite (map_fold_delete_L _ _ i l m); [reflexivity | intros; lia | assumption].
Qed.

Lemma sum_active_deactivate f (m : gmap Z EncryptedCreditLine) i l :
  m !! i = Some l -> isActive l = true ->
  sum_active f (<[i := deactivated l]> m) = sum_active f m - f l.
Proof.
  intros Hl Ha. rewrite (sum_active_delete f m i l Hl).
  rewrite <- insert_delete_eq.
  rewrite sum_active_insert by apply lookup_delete_eq.
  unfold contribution. rewrite Ha. simpl. lia.
Qed.

Lemma deploy_ids_allocated env e : ids_allocated (deploy env e).
Proof.
  split; simpl; [lia |]. intros id l H. rewrite lookup_empty in H. discriminate.
Qed.

Lemma deploy_totals_match env e : totals_match (deploy env e).
Proof.
  split; simpl; rewrite sum_active_empty, decrypt_zero; reflexivity.
Qed.

Lemma after_add_ids_allocated env b a u s :
  ids_allocated s -> ids_allocated (after_add env b a u s).
Proof.
  intros [H0 H]. split; simpl; [lia |]. intros id l Hl.
  destruct (decide (lineCount s + 1 = id)) as [<- | Hne]; [lia |].
  rewrite lookup_insert_ne in Hl by assumption.
  specialize (H id l Hl). lia.
Qed.

Lemma after_add_totals_match env b a u s :
  ids_allocated s -> totals_match s -> totals_match (after_add env b a u s).
Proof.
  intros [H0 Hids] [Ha Hu].
  assert (Hfresh : encryptedLines s !! (lineCount s + 1) = None).
  { destruct (encryptedLines s !! (lineCount s + 1)) as [l |] eqn:E; [| reflexivity].
    specialize (Hids _ _ E). lia. }
  split; simpl; rewrite sum_active_insert by assumption;
    rewrite decrypt_add; unfold contribution; simpl.
  - rewrite Ha, Zplus_mod_idemp_l. f_equal. unfold clear_amount. simpl. lia.
  - rewrite Hu, Zplus_mod_idemp_l. f_equal. unfold clear_utilized. simpl. lia.
Qed.

Lemma after_deactivate_ids_allocated id s :
  isActive (line_at s id) = true ->
  ids_allocated s -> ids_allocated (after_deactivate id s).
Proof.
  intros Hact [H0 H]. split; simpl; [lia |]. intros j l Hl.
  destruct (decide (id = j)) as [<- | Hne].
  - unfold line_at in Hact.
    destruct (encryptedLines s !! id) as [l0 |] eqn:E; [| discriminate].
    apply (H id l0 E).
  - rewrite lookup_insert_ne in Hl by assumption. apply (H j l Hl).
Qed.

Lemma after_deactivate_totals_match id s :
  isActive (line_at s id) = true ->
  totals_match s -> totals_match (after_deactivate id s).
Proof.
  intros Hact [Ha Hu].
  destruct (encryptedLines s !! id) as [l |] eqn:E;
    [| rewrite line_at_unknown in Hact by assumption; discriminate].
  rewrite (line_at_known _ _ _ E) in Hact.
  split; simpl; rewrite (line_at_known _ _ _ E);
    rewrite (sum_active_deactivate _ _ _ _ E Hact), decrypt_sub.
  - rewrite Ha, Zminus_mod_idemp_l. reflexivity.
  - rewrite Hu, Zminus_mod_idemp_l. reflexivity.
Qed.

(** Calls other than the two ledger operations leave the ledger alone. *)
Lemma step_ledger env c s :
  ids_allocated s -> totals_match s ->
  ids_allocated (step env c s) /\ totals_match (step env c s).
Proof.
  intros Hi Ht.
  destruct (step_cases env c s) as [(e & _ & ->) | (l & H)]; [auto |].
  destruct c as [b a u | o | r ct pf | | id | id | e]; simpl in H.
  - apply addEncryptedCreditLine_inv in H as (_ & _ & ->).
    auto using after_add_ids_allocated, after_add_totals_match.
  - apply requestAggregation_inv in H as (_ & _ & ->). auto.
  - apply handleAggregationResult_inv in H
      as (a & u & rest & _ & _ & _ & _ & -> & _).
    auto.
  - revert H. generalize (step env GetAggregationResult s). intros s' H.
    exec_cases. inversion H; subst. auto.
  - apply deactivateCreditLine_inv in H as (_ & Hact & ->).
    auto using after_deactivate_ids_allocated, after_deactivate_totals_match.
  - revert H. generalize (step env (GetCreditLineInfo id) s). intros s' H.
    exec_cases. inversion H; subst. auto.
  - revert H. generalize (step env (TransferEnterpriseOwnership e) s).
    intros s' H. exec_cases. inversion H; subst. auto.
Qed.

Lemma reachable_ledger s : reachable s -> ids_allocated s /\ totals_match s.
Proof.
  induction 1 as [env e | s env c _ [Hi Ht]].
  - split; [apply deploy_ids_allocated | apply deploy_totals_match].
  - apply step_ledger; assumption.
Qed.

End Ledger.

(** ** The reveal protocol *)

Section Reveal.
Context {F : FHE}.

Definition unpublished : AggregatedResult :=
  {| totalAvailable := 0; totalUtilized := 0; isRevealed := false |}.

(** Until a callback publishes, the result slot holds zeros. *)
Lemma step_unpublished env c s :
  (isRevealed (aggregatedResult s) = false -> aggregatedResult s = unpublished) ->
  isRevealed (aggregatedResult (step env c s)) = false ->
  aggregatedResult (step env c s) = unpublished.
Proof.
  intros Hs. unfold step, transact.
  destruct c; exec_cases; simpl; auto; discriminate.
Qed.

Lemma reachable_unpublished s :
  reachable s ->
  isRevealed (aggregatedResult s) = false -> aggregatedResult s = unpublished.
Proof.
  induction 1 as [env e | s env c _ IH]; [reflexivity |].
  apply step_unpublished, IH.
Qed.

Lemma reachable_run tr : forall s, reachable s -> reachable (run tr s).
Proof.
  induction tr as [| [env c] tr IH]; intros s H; simpl; [assumption |].
  apply IH, reachable_step, H.
Qed.

Lemma getAggregationResult_ok env s :
  msg_sender env = enterprise s ->
  getAggregationResult env s =
    (s, [], inr (totalAvailable (aggregatedResult s),
                 totalUtilized (aggregatedResult s),
                 isRevealed (aggregatedResult s))).
Proof. intros Hs. unfold_exec. rewrite (Zeqb_self _ _ Hs). reflexivity. Qed.

(** Once a result is published, both reveal operations fail. *)
Lemma requestAggregation_after_publish env o s :
  isRevealed (aggregatedResult s) = true ->
  exists e, requestAggregation env o s = (s, [], inl e).
Proof.
  intros H. unfold_exec.
  destruct (msg_sender env =? enterprise s); simpl; [rewrite H |]; eauto.
Qed.

Lemma handleAggregationResult_after_publish r ct pf s :
  isRevealed (aggregatedResult s) = true ->
  handleAggregationResult r ct pf s = (s, [], inl (Require "Invalid request")) \/
  handleAggregationResult r ct pf s = (s, [], inl (Require "Already revealed")).
Proof.
  intros H. unfold_exec.
  destruct (request_at s r =? 1); simpl; [rewrite H |]; auto.
Qed.

End Reveal.

(** ** Concrete runs on the cleartext capability *)

Definition add_A : Env * Call := (by_aggregator, AddEncryptedCreditLine 11 500 100).
Definition add_B : Env * Call := (by_aggregator, AddEncryptedCreditLine 12 300 50).

(** Line 1 added and then deactivated. *)
Definition s_deactivated : Storage :=
  run [add_A; (by_aggregator, DeactivateCreditLine 1)] s0.

(** Two lines, one decryption request (id 7) outstanding. *)
Definition s_pending : Storage :=
  run [add_A; add_B; (by_enterprise, RequestAggregation 7)] s0.

Definition valid_callback_7 : Call :=
  HandleAggregationResult 7 cleartexts_800_150 (plain_sign 7 cleartexts_800_150).

(** The valid callback for request 7 delivered: (800, 150) is published. *)
Definition s_published : Storage := step by_stranger valid_callback_7 s_pending.

Definition cleartexts_1_2 : bytes := abi_encode_uint32_array [1; 2].

Lemma reachable_s0 : reachable s0.
Proof. apply reachable_deploy. Qed.

Lemma decode_800_150 : abi_decode_uint32_array cleartexts_800_150 = Some [800; 150].
Proof. reflexivity. Qed.

Lemma callback_7_ok :
  handleAggregationResult 7 cleartexts_800_150 (plain_sign 7 cleartexts_800_150)
    s_pending
  = (set_aggregatedResult (published 800 150) s_pending,
     [AggregationCompleted 800 150], inr tt).
Proof.
  apply (handleAggregationResult_ok _ _ _ _ 800 150 []); reflexivity.
Qed.

Lemma s_published_eq :
  s_published = set_aggregatedResult (published 800 150) s_pending.
Proof.
  unfold s_published, valid_callback_7, step, transact. simpl dispatch.
  rewrite callback_7_ok. reflexivity.
Qed.

Lemma reachable_s_pending : reachable s_pending.
Proof. apply reachable_run, reachable_s0. Qed.

Lemma reachable_s_published : reachable s_published.
Proof. apply reachable_step, reachable_s_pending. Qed.

(** ** Properties *)

(** *** Aggregation ledger *)

(** C1. In every reachable state the two accumulators are the homomorphic
    sums over the records with [isActive = true]: under a faithful
    capability [encryptedTotalAvailable] decrypts to the sum of the
    decrypted [encryptedAmount] of the active records, and
    [encryptedTotalUtilized] to the sum of their decrypted
    [encryptedUtilized], in the 32-bit arithmetic of [euint32].  The state
    after any call, so after every successful [addEncryptedCreditLine] and
    [deactivateCreditLine], is reachable and satisfies it too. *)
Theorem accumulators_sum_active_lines {F : FHE} {HF : FaithfulFHE F} (s : Storage) :
  reachable s ->
  totals_match s /\ forall env c, totals_match (step env c s).
Proof.
  intros H. split.
  - apply reachable_ledger, H.
  - intros env c. apply reachable_ledger, reachable_step, H.
Qed.

Lemma accumulators_sum_active_lines_witness :
  reachable s_deactivated /\
  totals_match s_deactivated /\
  totals_match (step by_aggregator (AddEncryptedCreditLine 12 300 50) s_deactivated).
Proof.
  assert (R : reachable s_deactivated) by apply reachable_run, reachable_s0.
  destruct (accumulators_sum_active_lines s_deactivated R) as [H1 H2].
  split; [exact R | split; [exact H1 | apply H2]].
Defined.

(** *** Reveal protocol *)

(** C2 as stated fails: after a first [requestAggregation] (oracle id 7) a
    second one by the enterprise (oracle id 8) succeeds, and both request
    ids are accepted afterwards. *)
Lemma second_request_is_accepted :
  snd (transact (requestAggregation by_enterprise 7) s0)
    = Success [DecryptionRequest [0; 0] "handleAggregationResult";
               AggregationRequested] tt /\
  snd (transact (requestAggregation by_enterprise 8)
         (step by_enterprise (RequestAggregation 7) s0))
    = Success [DecryptionRequest [0; 0] "handleAggregationResult";
               AggregationRequested] tt /\
  request_at (run [(by_enterprise, RequestAggregation 7);
                   (by_enterprise, RequestAggregation 8)] s0) 7 = 1 /\
  request_at (run [(by_enterprise, RequestAggregation 7);
                   (by_enterprise, RequestAggregation 8)] s0) 8 = 1.
Proof. repeat split; reflexivity. Qed.

(** C2, amended.  After one [requestAggregation] succeeds and before any
    callback is fulfilled, a second [requestAggregation] by the same
    enterprise caller succeeds too: there is no pending check, the new
    request id is recorded next to the first, and both ids are accepted by
    the callback.  More than one decryption request can be outstanding. *)
Theorem second_request_succeeds {F : FHE} env1 env2 o1 o2 (s s1 : Storage) l1 :
  requestAggregation env1 o1 s = (s1, l1, inr tt) ->
  msg_sender env2 = msg_sender env1 ->
  requestAggregation env2 o2 s1 =
    (set_request o2 1 s1, [decryption_request s1; AggregationRequested], inr tt) /\
  request_at (set_request o2 1 s1) o1 = 1 /\
  request_at (set_request o2 1 s1) o2 = 1.
Proof.
  intros H Hsame. apply requestAggregation_inv in H as (Hs & Hr & ->).
  split; [| split].
  - apply requestAggregation_ok; [rewrite Hsame; exact Hs | exact Hr].
  - apply request_at_set_request_keep, request_at_set_request.
  - apply request_at_set_request.
Qed.

Lemma second_request_succeeds_witness :
  requestAggregation by_enterprise 7 s0
    = (set_request 7 1 s0, [decryption_request s0; AggregationRequested], inr tt) /\
  requestAggregation by_enterprise 8 (set_request 7 1 s0)
    = (set_request 8 1 (set_request 7 1 s0),
       [decryption_request (set_request 7 1 s0); AggregationRequested], inr tt) /\
  request_at (set_request 8 1 (set_request 7 1 s0)) 7 = 1 /\
  request_at (set_request 8 1 (set_request 7 1 s0)) 8 = 1.
Proof.
  assert (H : requestAggregation by_enterprise 7 s0
    = (set_request 7 1 s0, [decryption_request s0; AggregationRequested], inr tt))
    by reflexivity.
  split; [exact H |].
  exact (second_request_succeeds by_enterprise by_enterprise 7 8 s0 _ _ H eq_refl).
Defined.

(** C3. Once [aggregatedResult.isRevealed] is true the published result is
    immutable: whatever calls follow, [totalAvailable], [totalUtilized] and
    [isRevealed] keep their values, and every further [requestAggregation]
    and [handleAggregationResult] fails without writing.  So at most one
    result is ever published. *)
Theorem published_result_is_immutable {F : FHE} (tr : list (Env * Call)) (s : Storage) :
  isRevealed (aggregatedResult s) = true ->
  aggregatedResult (run tr s) = aggregatedResult s /\
  (forall env o, exists e,
      requestAggregation env o (run tr s) = (run tr s, [], inl e)) /\
  (forall r ct pf, exists e,
      handleAggregationResult r ct pf (run tr s) = (run tr s, [], inl e)).
Proof.
  intros H.
  assert (Hk : aggregatedResult (run tr s) = aggregatedResult s)
    by apply run_keeps_published, H.
  assert (Hr : isRevealed (aggregatedResult (run tr s)) = true)
    by (rewrite Hk; exact H).
  split; [exact Hk | split].
  - intros env o. apply requestAggregation_after_publish, Hr.
  - intros r ct pf.
    destruct (handleAggregationResult_after_publish r ct pf _ Hr) as [E | E];
      rewrite E; eauto.
Qed.

Lemma published_result_is_immutable_witness :
  isRevealed (aggregatedResult s_published) = true /\
  aggregatedResult
    (run [ (by_enterprise, RequestAggregation 8);
           (by_stranger, HandleAggregationResult 7 cleartexts_1_2
                            (plain_sign 7 cleartexts_1_2));
           add_A ] s_published)
    = published 800 150.
Proof.
  assert (H : isRevealed (aggregatedResult s_published) = true) by reflexivity.
  split; [exact H |].
  exact (proj1 (published_result_is_immutable _ s_published H)).
Defined.

(** *** Credit line store *)

(** C4 as stated fails: deactivating id 5, for which no record was ever
    created, and deactivating line 1 again after it was deactivated are
    rejected with one and the same error. *)
Lemma unknown_and_inactive_same_error :
  encryptedLines s0 !! 5 = None /\
  snd (transact (deactivateCreditLine by_aggregator 5) s0)
    = Reverted (Require "Line already inactive") /\
  isActive <$> encryptedLines s_deactivated !! 1 = Some false /\
  snd (transact (deactivateCreditLine by_aggregator 1) s_deactivated)
    = Reverted (Require "Line already inactive").
Proof. repeat split; reflexivity. Qed.

(** C4, amended.  [deactivateCreditLine], called by the aggregator with an
    id for which no record exists or with the id of a record that is
    already inactive, fails with the same error "Line already inactive" in
    both cases and writes nothing; the two cases are not distinguished. *)
Theorem deactivate_unknown_or_inactive {F : FHE} env id (s : Storage) :
  msg_sender env = aggregator s ->
  encryptedLines s !! id = None \/
    (exists l, encryptedLines s !! id = Some l /\ isActive l = false) ->
  deactivateCreditLine env id s = (s, [], inl (Require "Line already inactive")).
Proof.
  intros Hs [Hn | (l & Hl & Ha)]; apply deactivateCreditLine_inactive; try exact Hs.
  - apply line_at_unknown, Hn.
  - rewrite (line_at_known _ _ _ Hl). exact Ha.
Qed.

Lemma deactivate_unknown_or_inactive_witness :
  deactivateCreditLine by_aggregator 5 s0
    = (s0, [], inl (Require "Line already inactive")) /\
  deactivateCreditLine by_aggregator 1 s_deactivated
    = (s_deactivated, [], inl (Require "Line already inactive")).
Proof.
  split.
  - apply (deactivate_unknown_or_inactive by_aggregator 5 s0); [reflexivity |].
    left. reflexivity.
  - apply (deactivate_unknown_or_inactive by_aggregator 1 s_deactivated);
      [reflexivity |].
    right. exists (deactivated (new_line (F := PlainFHE) by_aggregator 11 500 100 1)).
    split; reflexivity.
Defined.

(** *** Reading the result *)

(** C5 as stated fails: before any result is published the enterprise's
    [getAggregationResult] does not fail, it returns (0, 0, false). *)
Lemma result_readable_before_reveal :
  isRevealed (aggregatedResult s_pending) = false /\
  transact (getAggregationResult by_enterprise) s_pending
    = (s_pending, Success [] (0, 0, false)).
Proof. split; reflexivity. Qed.

(** C5, amended.  [getAggregationResult], called by the enterprise, never
    fails: before any result is published it returns (0, 0, false), and
    after a callback has succeeded it returns the published values with
    [isRevealed = true]. *)
Theorem getAggregationResult_returns {F : FHE} env (s : Storage) :
  reachable s ->
  msg_sender env = enterprise s ->
  (isRevealed (aggregatedResult s) = false ->
     getAggregationResult env s = (s, [], inr (0, 0, false))) /\
  (forall r ct pf s' l,
     handleAggregationResult r ct pf s = (s', l, inr tt) ->
     exists a u rest,
       abi_decode_uint32_array ct = Some (a :: u :: rest) /\
       getAggregationResult env s' = (s', [], inr (a, u, true))).
Proof.
  intros Hreach Hs. split.
  - intros Hr. rewrite getAggregationResult_ok by exact Hs.
    rewrite (reachable_unpublished s Hreach Hr). reflexivity.
  - intros r ct pf s' l H.
    apply handleAggregationResult_inv in H
      as (a & u & rest & _ & _ & _ & Hd & -> & _).
    exists a, u, rest. split; [exact Hd |].
    apply getAggregationResult_ok. exact Hs.
Qed.

Lemma getAggregationResult_returns_witness :
  getAggregationResult by_enterprise s_pending = (s_pending, [], inr (0, 0, false)) /\
  getAggregationResult by_enterprise s_published
    = (s_published, [], inr (800, 150, true)).
Proof.
  destruct (getAggregationResult_returns by_enterprise s_pending
              reachable_s_pending eq_refl) as [H1 H2].
  split; [apply H1; reflexivity |].
  destruct (H2 _ _ _ _ _ callback_7_ok) as (a & u & rest & Hd & Hg).
  rewrite decode_800_150 in Hd. inversion Hd; subst.
  rewrite s_published_eq. exact Hg.
Defined.

(** C6. Calling [handleAggregationResult] twice with the same valid
    (requestId, cleartexts, proof) publishes once: the first call writes
    the result and emits one [AggregationCompleted]; the second fails with
    "Already revealed", emits nothing and leaves storage, and so the
    published result, as it was. *)
Theorem callback_twice_publishes_once {F : FHE} r ct pf (s s1 : Storage) l :
  handleAggregationResult r ct pf s = (s1, l, inr tt) ->
  (exists a u, l = [AggregationCompleted a u] /\
               aggregatedResult s1 = published a u) /\
  handleAggregationResult r ct pf s1 = (s1, [], inl (Require "Already revealed")) /\
  forall env, step env (HandleAggregationResult r ct pf) s1 = s1.
Proof.
  intros H.
  apply handleAggregationResult_inv in H
    as (a & u & rest & H1 & _ & _ & _ & -> & ->).
  assert (E : handleAggregationResult r ct pf
                (set_aggregatedResult (published a u) s)
              = (set_aggregatedResult (published a u) s, [],
                 inl (Require "Already revealed")))
    by (apply handleAggregationResult_revealed; [exact H1 | reflexivity]).
  split; [exists a, u; split; reflexivity | split; [exact E |]].
  intros env. eapply step_failure. simpl. exact E.
Qed.

Lemma callback_twice_publishes_once_witness :
  aggregatedResult s_published = published 800 150 /\
  handleAggregationResult 7 cleartexts_800_150 (plain_sign 7 cleartexts_800_150)
    s_published = (s_published, [], inl (Require "Already revealed")) /\
  step by_stranger valid_callback_7 s_published = s_published.
Proof.
  destruct (callback_twice_publishes_once _ _ _ _ _ _ callback_7_ok)
    as (_ & H2 & H3).
  unfold valid_callback_7. rewrite s_published_eq.
  split; [reflexivity | split; [exact H2 | apply H3]].
Defined.

(** *** Failure and access control *)

(** C7. A call that fails leaves everything as it was: at the point where
    [addEncryptedCreditLine], [deactivateCreditLine], [requestAggregation],
    [handleAggregationResult] (or any other call) fails, nothing has been
    written to storage and nothing emitted, so records, accumulators,
    request table and published result are those from before the call,
    and the transaction's storage is the one before the call. *)
Theorem failed_call_changes_nothing {F : FHE} env c (s s' : Storage) l e :
  dispatch env c s = (s', l, inl e) ->
  s' = s /\ l = [] /\ transact (dispatch env c) s = (s, Reverted e).
Proof.
  intros H. destruct (dispatch_failure _ _ _ _ _ _ H) as [-> ->].
  repeat split. unfold transact. rewrite H. reflexivity.
Qed.

Lemma failed_call_changes_nothing_witness :
  (* deactivating an inactive line *)
  transact (deactivateCreditLine by_aggregator 1) s_deactivated
    = (s_deactivated, Reverted (Require "Line already inactive")) /\
  (* a callback with a proof made for other cleartexts *)
  transact (handleAggregationResult 7 cleartexts_800_150
              (plain_sign 7 cleartexts_1_2)) s_pending
    = (s_pending, Reverted InvalidSignatures) /\
  request_at s_pending 7 = 1 /\
  isRevealed (aggregatedResult s_pending) = false.
Proof.
  assert (E1 : dispatch by_aggregator (DeactivateCreditLine 1) s_deactivated
               = (s_deactivated, [], inl (Require "Line already inactive")))
    by (reflexivity).
  assert (E2 : dispatch by_stranger
                 (HandleAggregationResult 7 cleartexts_800_150
                    (plain_sign 7 cleartexts_1_2)) s_pending
               = (s_pending, [], inl InvalidSignatures))
    by (reflexivity).
  split; [| split; [| split; reflexivity]].
  - exact (proj2 (proj2 (failed_call_changes_nothing _ _ _ _ _ _ E1))).
  - exact (proj2 (proj2 (failed_call_changes_nothing _ _ _ _ _ _ E2))).
Defined.

(** C9. Every gated operation fails closed when the caller lacks the role
    and writes nothing: [addEncryptedCreditLine] and [deactivateCreditLine]
    reject a caller other than the aggregator ("Caller not authorized");
    [requestAggregation], [getAggregationResult], [getCreditLineInfo] and
    [transferEnterpriseOwnership] reject a caller other than the enterprise
    ("Enterprise only").  Storage, and with it the ledger and the reveal
    state, is unchanged. *)
Theorem unauthorized_calls_rejected {F : FHE} env (s : Storage) :
  (msg_sender env <> aggregator s ->
     (forall b a u,
        addEncryptedCreditLine env b a u s
          = (s, [], inl (Require "Caller not authorized")) /\
        step env (AddEncryptedCreditLine b a u) s = s) /\
     (forall id,
        deactivateCreditLine env id s
          = (s, [], inl (Require "Caller not authorized")) /\
        step env (DeactivateCreditLine id) s = s)) /\
  (msg_sender env <> enterprise s ->
     (forall o,
        requestAggregation env o s = (s, [], inl (Require "Enterprise only")) /\
        step env (RequestAggregation o) s = s) /\
     getAggregationResult env s = (s, [], inl (Require "Enterprise only")) /\
     (forall id,
        getCreditLineInfo env id s = (s, [], inl (Require "Enterprise only"))) /\
     (forall e,
        transferEnterpriseOwnership env e s
          = (s, [], inl (Require "Enterprise only")) /\
        step env (TransferEnterpriseOwnership e) s = s)).
Proof.
  split; intros H.
  - pose proof (onlyAggregator_rejects env s H) as R.
    split; intros; (split; [apply bind_failure, R |]);
      (eapply step_failure; simpl; apply bind_failure, R).
  - pose proof (onlyEnterprise_rejects env s H) as R.
    repeat split; intros; try (apply bind_failure, R);
      (eapply step_failure; simpl; apply bind_failure, R).
Qed.

Lemma unauthorized_calls_rejected_witness :
  addEncryptedCreditLine by_stranger 13 700 10 s_pending
    = (s_pending, [], inl (Require "Caller not authorized")) /\
  deactivateCreditLine by_stranger 1 s_pending
    = (s_pending, [], inl (Require "Caller not authorized")) /\
  requestAggregation by_stranger 9 s_pending
    = (s_pending, [], inl (Require "Enterprise only")) /\
  step by_stranger (RequestAggregation 9) s_pending = s_pending /\
  getAggregationResult by_aggregator s_pending
    = (s_pending, [], inl (Require "Enterprise only")) /\
  getCreditLineInfo by_stranger 1 s_pending
    = (s_pending, [], inl (Require "Enterprise only")) /\
  transferEnterpriseOwnership by_stranger 3003 s_pending
    = (s_pending, [], inl (Require "Enterprise only")).
Proof.
  assert (Na : msg_sender by_stranger <> aggregator s_pending)
    by (intros E; discriminate E).
  assert (Ne : msg_sender by_stranger <> enterprise s_pending)
    by (intros E; discriminate E).
  assert (Ne' : msg_sender by_aggregator <> enterprise s_pending)
    by (intros E; discriminate E).
  destruct (unauthorized_calls_rejected by_stranger s_pending) as [Ha He].
  destruct (Ha Na) as [Hadd Hdeact].
  destruct (He Ne) as (Hreq & _ & Hinfo & Htransfer).
  destruct (unauthorized_calls_rejected by_aggregator s_pending) as [_ He'].
  destruct (He' Ne') as (_ & Hget & _).
  split; [apply Hadd |].
  split; [apply Hdeact |].
  split; [apply Hreq |].
  split; [apply Hreq |].
  split; [exact Hget |].
  split; [apply Hinfo | apply Htransfer].
Defined.

(** *** End to end *)

Lemma one_le_max (n : Z) : 0 <= n <= 1 -> n + 1 <= MAX_UINT256.
Proof.
  intros H. assert (2 <= MAX_UINT256) by (vm_compute; discriminate). lia.
Qed.

(** C8. With a faithful capability: from the initial state, adding line A
    (available 500, utilized 100) and line B (available 300, utilized 50),
    requesting the aggregation, and delivering the callback that carries
    the cleartexts (800, 150) with a valid proof makes
    [getAggregationResult] return (800, 150, true); the accumulators whose
    decryption was requested do decrypt to 800 and 150. *)
Theorem scenario_reveals_800_150 {F : FHE} {HF : FaithfulFHE F}
    (envD envA envB envE envC envG : Env) (ent bankA bankB : address)
    (a_av a_ut b_av b_ut : euint32) (o : uint256) (pf : bytes) :
  msg_sender envA = msg_sender envD ->
  msg_sender envB = msg_sender envD ->
  msg_sender envE = ent ->
  msg_sender envG = ent ->
  decrypt a_av = 500 -> decrypt a_ut = 100 ->
  decrypt b_av = 300 -> decrypt b_ut = 50 ->
  checkSignatures o cleartexts_800_150 pf = true ->
  let s := run [ (envA, AddEncryptedCreditLine bankA a_av a_ut);
                 (envB, AddEncryptedCreditLine bankB b_av b_ut);
                 (envE, RequestAggregation o);
                 (envC, HandleAggregationResult o cleartexts_800_150 pf) ]
               (deploy envD ent) in
  transact (getAggregationResult envG) s = (s, Success [] (800, 150, true)) /\
  decrypt (encryptedTotalAvailable s) = 800 /\
  decrypt (encryptedTotalUtilized s) = 150.
Proof.
  intros HA HB HE HG Ha_av Ha_ut Hb_av Hb_ut Hsig. cbn [run].
  set (s0' := deploy envD ent).
  assert (E1 : step envA (AddEncryptedCreditLine bankA a_av a_ut) s0'
               = after_add envA bankA a_av a_ut s0').
  { eapply step_success. simpl dispatch.
    apply addEncryptedCreditLine_ok; [exact HA | apply one_le_max; simpl; lia]. }
  rewrite E1. set (s1 := after_add envA bankA a_av a_ut s0').
  assert (E2 : step envB (AddEncryptedCreditLine bankB b_av b_ut) s1
               = after_add envB bankB b_av b_ut s1).
  { eapply step_success. simpl dispatch.
    apply addEncryptedCreditLine_ok; [exact HB | apply one_le_max; simpl; lia]. }
  rewrite E2. set (s2 := after_add envB bankB b_av b_ut s1).
  assert (E3 : step envE (RequestAggregation o) s2 = set_request o 1 s2).
  { eapply step_success. simpl dispatch.
    apply requestAggregation_ok; [exact HE | reflexivity]. }
  rewrite E3. set (s3 := set_request o 1 s2).
  assert (E4 : step envC (HandleAggregationResult o cleartexts_800_150 pf) s3
               = set_aggregatedResult (published 800 150) s3).
  { eapply step_success. simpl dispatch.
    apply (handleAggregationResult_ok _ _ _ _ 800 150 []);
      [apply request_at_set_request | reflexivity | exact Hsig
      | exact decode_800_150]. }
  rewrite E4. split; [| split].
  - unfold transact. rewrite getAggregationResult_ok by exact HG. reflexivity.
  - simpl. rewrite !decrypt_add, decrypt_zero, Ha_av, Hb_av. reflexivity.
  - simpl. rewrite !decrypt_add, decrypt_zero, Ha_ut, Hb_ut. reflexivity.
Qed.

Lemma scenario_reveals_800_150_witness :
  transact (getAggregationResult by_enterprise) (run scenario s0)
    = (run scenario s0, Success [] (800, 150, true)) /\
  decrypt (encryptedTotalAvailable (run scenario s0)) = 800 /\
  decrypt (encryptedTotalUtilized (run scenario s0)) = 150.
Proof.
  pose proof (scenario_reveals_800_150 (F := PlainFHE)
           by_aggregator by_aggregator by_aggregator by_enterprise by_stranger
           by_enterprise enterprise0 11 12 500 100 300 50 7
           (plain_sign 7 cleartexts_800_150)
           eq_refl eq_refl eq_refl eq_refl eq_refl eq_refl eq_refl eq_refl
           eq_refl) as H.
  cbv zeta in H. unfold scenario, s0. exact H.
Defined.

(** *** Several outstanding requests *)

(** Requests 7 and 8 both outstanding. *)
Definition s_two_pending : Storage := set_request 8 1 s_pending.

Lemma second_request_8 :
  requestAggregation by_enterprise 8 s_pending
    = (s_two_pending, [decryption_request s_pending; AggregationRequested], inr tt).
Proof. apply requestAggregation_ok; reflexivity. Qed.

(** The two values 800 and 150 as two consecutive words, the encoding of
    the pair [(uint32, uint32)] and not of a [uint32[]]. *)
Definition words_800_150 : bytes := word_bytes 800 ++ word_bytes 150.

(** C10 as stated fails: with requests 7 and 8 outstanding, a callback for
    request 7 whose proof passes verification but whose cleartexts are
    the two words 800 and 150 (not an encoded array) reverts in
    [abi.decode] and publishes nothing; the later callback for request 8
    then succeeds instead of failing with "Already revealed". *)
Lemma verified_callback_may_not_publish :
  request_at s_two_pending 7 = 1 /\
  request_at s_two_pending 8 = 1 /\
  checkSignatures 7 words_800_150 (plain_sign 7 words_800_150) = true /\
  handleAggregationResult 7 words_800_150 (plain_sign 7 words_800_150)
    s_two_pending
    = (s_two_pending, [], inl AbiDecode) /\
  snd (transact
         (handleAggregationResult 8 cleartexts_800_150
            (plain_sign 8 cleartexts_800_150))
         (step by_stranger
            (HandleAggregationResult 7 words_800_150
               (plain_sign 7 words_800_150))
            s_two_pending))
    = Success [AggregationCompleted 800 150] tt.
Proof.
  split; [reflexivity |]. split; [reflexivity |]. split; [reflexivity |].
  assert (E : handleAggregationResult 7 words_800_150
                (plain_sign 7 words_800_150) s_two_pending
              = (s_two_pending, [], inl AbiDecode)) by reflexivity.
  split; [exact E |].
  rewrite (step_failure by_stranger
             (HandleAggregationResult 7 words_800_150
                (plain_sign 7 words_800_150)) _ _ _ _ E).
  unfold transact.
  rewrite (handleAggregationResult_ok _ _ _ _ 800 150 []); reflexivity.
Qed.

(** C10, amended.  Entries of [requestToAggregationId] are never cleared:
    a request id issued by [requestAggregation] stays registered through
    every later call, and [handleAggregationResult] never answers "Invalid
    request" for it.  With several outstanding requests, the first
    callback that passes proof verification and whose cleartexts decode to
    a [uint32] array of at least two elements publishes the result; once a
    callback has succeeded, every later callback for an issued request,
    also one with a valid proof for a different issued request, fails
    with "Already revealed". *)
Theorem issued_request_ids_stay_valid {F : FHE} env o1 (s s1 : Storage) l1
    (tr : list (Env * Call)) :
  requestAggregation env o1 s = (s1, l1, inr tt) ->
  request_at (run tr s1) o1 = 1 /\
  (forall ct pf s' l',
     handleAggregationResult o1 ct pf (run tr s1)
       <> (s', l', inl (Require "Invalid request"))) /\
  (forall ct pf a u rest,
     isRevealed (aggregatedResult (run tr s1)) = false ->
     checkSignatures o1 ct pf = true ->
     abi_decode_uint32_array ct = Some (a :: u :: rest) ->
     handleAggregationResult o1 ct pf (run tr s1)
       = (set_aggregatedResult (published a u) (run tr s1),
          [AggregationCompleted a u], inr tt)) /\
  (forall r ct pf s3 l3 tr' ct' pf',
     handleAggregationResult r ct pf (run tr s1) = (s3, l3, inr tt) ->
     handleAggregationResult o1 ct' pf' (run tr' s3)
       = (run tr' s3, [], inl (Require "Already revealed"))).
Proof.
  intros H. apply requestAggregation_inv in H as (_ & _ & ->).
  assert (Hreg : request_at (run tr (set_request o1 1 s)) o1 = 1)
    by apply run_keeps_request, request_at_set_request.
  split; [exact Hreg | split; [| split]].
  - intros ct pf s' l'. apply handleAggregationResult_known, Hreg.
  - intros ct pf a u rest Hr Hsig Hd.
    apply (handleAggregationResult_ok _ _ _ _ a u rest); assumption.
  - intros r ct pf s3 l3 tr' ct' pf' Hcb.
    apply handleAggregationResult_inv in Hcb
      as (a & u & rest & _ & _ & _ & _ & -> & _).
    apply handleAggregationResult_revealed.
    + apply run_keeps_request. exact Hreg.
    + rewrite run_keeps_published; reflexivity.
Qed.

Lemma issued_request_ids_stay_valid_witness :
  request_at s_two_pending 8 = 1 /\
  checkSignatures 8 cleartexts_1_2 (plain_sign 8 cleartexts_1_2) = true /\
  handleAggregationResult 8 cleartexts_1_2 (plain_sign 8 cleartexts_1_2)
    (set_aggregatedResult (published 800 150) s_two_pending)
  = (set_aggregatedResult (published 800 150) s_two_pending, [],
     inl (Require "Already revealed")).
Proof.
  destruct (issued_request_ids_stay_valid by_enterprise 8 s_pending
              s_two_pending _ [] second_request_8) as (H1 & _ & _ & H4).
  split; [exact H1 |]. split; [reflexivity |].
  assert (E : handleAggregationResult 7 cleartexts_800_150
                (plain_sign 7 cleartexts_800_150) (run [] s_two_pending)
              = (set_aggregatedResult (published 800 150) s_two_pending,
                 [AggregationCompleted 800 150], inr tt))
    by (apply (handleAggregationResult_ok _ _ _ _ 800 150 []); reflexivity).
  exact (H4 7 _ _ _ _ [] cleartexts_1_2 (plain_sign 8 cleartexts_1_2) E).
Defined.

(** ** Further properties of the contract *)

(** *** The storage changes a call can make *)

Section Transitions.
Context {F : FHE}.

(** The successful calls that write storage, with the storage they leave. *)
Inductive writes (env : Env) (s : Storage) : Call -> Storage -> Prop :=
| writes_add b a u :
    msg_sender env = aggregator s -> lineCount s + 1 <= MAX_UINT256 ->
    writes env s (AddEncryptedCreditLine b a u) (after_add env b a u s)
| writes_request o :
    msg_sender env = enterprise s -> isRevealed (aggregatedResult s) = false ->
    writes env s (RequestAggregation o) (set_request o 1 s)
| writes_callback r ct pf a u rest :
    request_at s r = 1 -> isRevealed (aggregatedResult s) = false ->
    checkSignatures r ct pf = true ->
    abi_decode_uint32_array ct = Some (a :: u :: rest) ->
    writes env s (HandleAggregationResult r ct pf)
      (set_aggregatedResult (published a u) s)
| writes_deactivate id :
    msg_sender env = aggregator s -> isActive (line_at s id) = true ->
    writes env s (DeactivateCreditLine id) (after_deactivate id s)
| writes_transfer e :
    msg_sender env = enterprise s ->
    writes env s (TransferEnterpriseOwnership e) (set_enterprise e s).

Lemma transferEnterpriseOwnership_ok env e s :
  msg_sender env = enterprise s ->
  transferEnterpriseOwnership env e s = (set_enterprise e s, [], inr tt).
Proof. intros Hs. unfold_exec. rewrite (Zeqb_self _ _ Hs). reflexivity. Qed.

Lemma transferEnterpriseOwnership_inv env e s s' l :
  transferEnterpriseOwnership env e s = (s', l, inr tt) ->
  msg_sender env = enterprise s /\ s' = set_enterprise e s.
Proof.
  intros H. exec_cases. inversion H; subst.
  split; [apply Z.eqb_eq; assumption | reflexivity].
Qed.

Lemma getAggregationResult_keeps env s s' l v :
  getAggregationResult env s = (s', l, inr v) -> s' = s.
Proof. intros H. exec_cases. inversion H; reflexivity. Qed.

Lemma getCreditLineInfo_keeps env id s s' l v :
  getCreditLineInfo env id s = (s', l, inr v) -> s' = s.
Proof. intros H. exec_cases. inversion H; reflexivity. Qed.

(** A step either keeps the storage (a failed call or a read) or is one of
    the writes above. *)
Lemma step_writes env c s :
  step env c s = s \/ writes env s c (step env c s).
Proof.
  destruct (step_cases env c s) as [(e & _ & ->) | (l & H)]; [left; reflexivity |].
  revert H. generalize (step env c s). intros s' H.
  destruct c as [b a u | o | r ct pf | | id | id | e]; simpl in H.
  - apply addEncryptedCreditLine_inv in H as (Hs & Hc & ->).
    right. constructor; assumption.
  - apply requestAggregation_inv in H as (Hs & Hr & ->).
    right. constructor; assumption.
  - apply handleAggregationResult_inv in H
      as (a & u & rest & H1 & H2 & H3 & H4 & -> & _).
    right. econstructor; eassumption.
  - left. unfold void, bind in H.
    destruct (getAggregationResult env s) as [[s1 l1] [e1 | v]] eqn:E;
      [discriminate |].
    inversion H; subst. eapply getAggregationResult_keeps, E.
  - apply deactivateCreditLine_inv in H as (Hs & Ha & ->).
    right. constructor; assumption.
  - left. unfold void, bind in H.
    destruct (getCreditLineInfo env id s) as [[s1 l1] [e1 | v]] eqn:E;
      [discriminate |].
    inversion H; subst. eapply getCreditLineInfo_keeps, E.
  - apply transferEnterpriseOwnership_inv in H as (Hs & ->).
    right. constructor; assumption.
Qed.

(** Conversely each write is what the step does. *)
Lemma writes_step env c s s' : writes env s c s' -> step env c s = s'.
Proof.
  intros H. destruct H; eapply step_success; simpl.
  - apply addEncryptedCreditLine_ok; assumption.
  - apply requestAggregation_ok; assumption.
  - eapply handleAggregationResult_ok; eassumption.
  - apply deactivateCreditLine_ok; assumption.
  - apply transferEnterpriseOwnership_ok; assumption.
Qed.

(** An invariant of the initial storage and of every write holds in every
    reachable state. *)
Lemma reachable_ind_writes (P : Storage -> Prop) :
  (forall env e, P (deploy env e)) ->
  (forall env c s s', reachable s -> P s -> writes env s c s' -> P s') ->
  forall s, reachable s -> P s.
Proof.
  intros Hd Hw s H. induction H as [env e | s env c Hr IH]; [apply Hd |].
  destruct (step_writes env c s) as [-> | Hwr]; [exact IH |].
  eapply Hw; eassumption.
Qed.

End Transitions.

(** *** The credit line store *)

Section Store.
Context {F : FHE}.

(** The records are exactly those numbered 1 to [lineCount], each filed
    under its own [lineId], and the counter fits a [uint256]. *)
Definition lines_wf (s : Storage) : Prop :=
  0 <= lineCount s <= MAX_UINT256 /\
  (forall id, is_Some (encryptedLines s !! id) <-> 1 <= id <= lineCount s) /\
  (forall id l, encryptedLines s !! id = Some l -> lineId l = id) /\
  size (encryptedLines s) = Z.to_nat (lineCount s).

(** What a later call may change in a record: only [isActive], and only
    from true to false. *)
Definition kept (l l' : EncryptedCreditLine) : Prop :=
  lineId l' = lineId l /\ bankAddress l' = bankAddress l /\
  encryptedAmount l' = encryptedAmount l /\
  encryptedUtilized l' = encryptedUtilized l /\
  timestamp l' = timestamp l /\
  (isActive l = false -> isActive l' = false).

Lemma kept_refl l : kept l l.
Proof. unfold kept. auto 10. Qed.

Lemma kept_trans l1 l2 l3 : kept l1 l2 -> kept l2 l3 -> kept l1 l3.
Proof.
  unfold kept. intros (A1 & A2 & A3 & A4 & A5 & A6) (B1 & B2 & B3 & B4 & B5 & B6).
  repeat split; try congruence. auto.
Qed.

Lemma kept_deactivated l : kept l (deactivated l).
Proof. unfold kept. simpl. auto 10. Qed.

Lemma line_at_active s id :
  isActive (line_at s id) = true ->
  exists l, encryptedLines s !! id = Some l /\ line_at s id = l /\ isActive l = true.
Proof.
  unfold line_at. destruct (encryptedLines s !! id) as [l |]; simpl;
    [eauto | discriminate].
Qed.

Lemma deploy_lines_wf env e : lines_wf (deploy env e).
Proof.
  split; [| split; [| split]]; simpl.
  - split; [lia | vm_compute; discriminate].
  - intros id. rewrite lookup_empty.
    split; [intros [x Hx]; discriminate | intros H; lia].
  - intros id l H. rewrite lookup_empty in H. discriminate.
  - apply map_size_empty.
Qed.

Lemma lines_wf_fresh s :
  lines_wf s -> encryptedLines s !! (lineCount s + 1) = None.
Proof.
  intros (_ & Hdom & _). apply eq_None_not_Some. intros H.
  apply Hdom in H. lia.
Qed.

Lemma writes_lines_wf env c s s' : lines_wf s -> writes env s c s' -> lines_wf s'.
Proof.
  intros Hwf H. pose proof (lines_wf_fresh s Hwf) as Hfresh.
  destruct H as [b a u Hs Hle | | | id Hs Ha |]; try exact Hwf.
  - destruct Hwf as (Hc & Hdom & Hid & Hsize).
    split; [| split; [| split]]; simpl.
    + lia.
    + intros id. rewrite lookup_insert_is_Some. rewrite Hdom.
      destruct (decide (lineCount s + 1 = id)); lia.
    + intros id l H.
      destruct (decide (lineCount s + 1 = id)) as [<- | Hne].
      * rewrite lookup_insert_eq in H. inversion H. reflexivity.
      * rewrite lookup_insert_ne in H by exact Hne. apply Hid, H.
    + rewrite map_size_insert_None by exact Hfresh. rewrite Hsize. lia.
  - destruct Hwf as (Hc & Hdom & Hid & Hsize).
    apply line_at_active in Ha as (l & Hl & Hat & _).
    assert (Hin : 1 <= id <= lineCount s) by (apply Hdom; eauto).
    split; [| split; [| split]]; simpl.
    + lia.
    + intros j. rewrite lookup_insert_is_Some. rewrite Hdom.
      destruct (decide (id = j)); lia.
    + intros j l' H.
      destruct (decide (id = j)) as [<- | Hne].
      * rewrite lookup_insert_eq in H. inversion H. rewrite Hat. simpl.
        apply Hid, Hl.
      * rewrite lookup_insert_ne in H by exact Hne. apply Hid, H.
    + rewrite map_size_insert_Some by eauto. exact Hsize.
Qed.

Lemma reachable_lines_wf s : reachable s -> lines_wf s.
Proof.
  apply reachable_ind_writes.
  - apply deploy_lines_wf.
  - intros env c s0 s' _ Hwf Hw. eapply writes_lines_wf; eassumption.
Qed.

Lemma writes_keeps_record env c s s' id l :
  lines_wf s -> writes env s c s' ->
  encryptedLines s !! id = Some l ->
  exists l', encryptedLines s' !! id = Some l' /\ kept l l'.
Proof.
  intros Hwf H Hl. pose proof (lines_wf_fresh s Hwf) as Hfresh.
  destruct H as [b a u Hs Hle | | | j Hs Ha |]; simpl;
    try (exists l; split; [exact Hl | apply kept_refl]).
  - exists l. split; [| apply kept_refl].
    rewrite lookup_insert_ne; [exact Hl |]. intros E. congruence.
  - destruct (decide (j = id)) as [-> | Hne].
    + exists (deactivated (line_at s id)). rewrite lookup_insert_eq.
      split; [reflexivity |]. rewrite (line_at_known _ _ _ Hl).
      apply kept_deactivated.
    + exists l. rewrite lookup_insert_ne by exact Hne.
      split; [exact Hl | apply kept_refl].
Qed.

Lemma step_keeps_record env c s id l :
  lines_wf s -> encryptedLines s !! id = Some l ->
  lines_wf (step env c s) /\
  exists l', encryptedLines (step env c s) !! id = Some l' /\ kept l l'.
Proof.
  intros Hwf Hl. destruct (step_writes env c s) as [-> | Hw].
  - split; [exact Hwf |]. exists l. split; [exact Hl | apply kept_refl].
  - split; [eapply writes_lines_wf; eassumption |].
    eapply writes_keeps_record; eassumption.
Qed.

Lemma run_keeps_record tr : forall s id l,
  lines_wf s -> encryptedLines s !! id = Some l ->
  exists l', encryptedLines (run tr s) !! id = Some l' /\ kept l l'.
Proof.
  induction tr as [| [env c] tr IH]; intros s id l Hwf Hl; simpl.
  - exists l. split; [exact Hl | apply kept_refl].
  - destruct (step_keeps_record env c s id l Hwf Hl) as (Hwf' & l1 & Hl1 & K1).
    destruct (IH _ _ _ Hwf' Hl1) as (l2 & Hl2 & K2).
    exists l2. split; [exact Hl2 | eapply kept_trans; eassumption].
Qed.

End Store.

Section StoreProperties.
Context {F : FHE}.

Lemma getCreditLineInfo_ok env id s :
  msg_sender env = enterprise s ->
  getCreditLineInfo env id s =
    (s, [], inr (bankAddress (line_at s id), timestamp (line_at s id),
                 isActive (line_at s id))).
Proof. intros Hs. unfold_exec. rewrite (Zeqb_self _ _ Hs). reflexivity. Qed.

Lemma addEncryptedCreditLine_overflow env b a u s :
  msg_sender env = aggregator s ->
  lineCount s + 1 > MAX_UINT256 ->
  addEncryptedCreditLine env b a u s = (s, [], inl (Panic 17)).
Proof.
  intros Hs Hc. unfold_exec. rewrite (Zeqb_self _ _ Hs); simpl.
  rewrite (Zgtb_gt _ _ Hc). reflexivity.
Qed.

Lemma small_counter_fits (n : Z) : n <= 1000 -> n + 1 <= MAX_UINT256.
Proof.
  intros H. assert (1001 <= MAX_UINT256) by (vm_compute; discriminate). lia.
Qed.

Lemma after_add_line_at env b a u s :
  line_at (after_add env b a u s) (lineCount s + 1)
    = new_line env b a u (lineCount s + 1).
Proof. unfold line_at, after_add. simpl. rewrite lookup_insert_eq. reflexivity. Qed.

End StoreProperties.

(** X1. In every reachable state the stored records are exactly those with
    ids 1 to [lineCount]: an id has a record if and only if it lies in that
    range, every record carries its own id in [lineId], the number of
    records is [lineCount], and [lineCount] is within [uint256]. *)
Theorem line_ids_are_one_to_lineCount {F : FHE} (s : Storage) :
  reachable s ->
  0 <= lineCount s <= MAX_UINT256 /\
  (forall id, is_Some (encryptedLines s !! id) <-> 1 <= id <= lineCount s) /\
  (forall id l, encryptedLines s !! id = Some l -> lineId l = id) /\
  size (encryptedLines s) = Z.to_nat (lineCount s).
Proof. intros H. exact (reachable_lines_wf s H). Qed.

Lemma line_ids_are_one_to_lineCount_witness :
  reachable s_pending /\
  lineCount s_pending = 2 /\
  (forall id, is_Some (encryptedLines s_pending !! id) <-> 1 <= id <= 2) /\
  size (encryptedLines s_pending) = 2%nat.
Proof.
  destruct (line_ids_are_one_to_lineCount s_pending reachable_s_pending)
    as (_ & Hdom & _ & Hsize).
  split; [exact reachable_s_pending |].
  split; [reflexivity |]. split; [exact Hdom | exact Hsize].
Defined.

(** X2. A record, once stored, is never removed or overwritten: after any
    further calls the record is still filed under its id with the same
    [lineId], [bankAddress], ciphertexts and [timestamp]; only [isActive]
    can change, and an inactive record stays inactive (no call
    reactivates a line). *)
Theorem records_change_only_by_deactivation {F : FHE} (s : Storage) id l
    (tr : list (Env * Call)) :
  reachable s ->
  encryptedLines s !! id = Some l ->
  exists l',
    encryptedLines (run tr s) !! id = Some l' /\
    lineId l' = lineId l /\ bankAddress l' = bankAddress l /\
    encryptedAmount l' = encryptedAmount l /\
    encryptedUtilized l' = encryptedUtilized l /\
    timestamp l' = timestamp l /\
    (isActive l = false -> isActive l' = false).
Proof.
  intros Hr Hl. apply run_keeps_record; [apply reachable_lines_wf, Hr | exact Hl].
Qed.

Lemma records_change_only_by_deactivation_witness :
  exists l',
    encryptedLines
      (run [ (by_aggregator, DeactivateCreditLine 1);
             (by_aggregator, AddEncryptedCreditLine 11 900 900);
             (by_stranger, DeactivateCreditLine 2) ] s_pending) !! 1 = Some l' /\
    lineId l' = 1 /\ bankAddress l' = 11 /\
    encryptedAmount l' = 500 /\ encryptedUtilized l' = 100 /\
    timestamp l' = 1700000000 /\
    (true = false -> isActive l' = false).
Proof.
  exact (records_change_only_by_deactivation s_pending 1
           (new_line (F := PlainFHE) by_aggregator 11 500 100 1) _
           reachable_s_pending eq_refl).
Defined.

(** X3. Deactivation is terminal: once [deactivateCreditLine] has
    succeeded for an id, the record stays inactive through every later
    call and every further [deactivateCreditLine] of that id by the
    aggregator fails with "Line already inactive". *)
Theorem deactivation_is_terminal {F : FHE} env id (s s1 : Storage) l
    (tr : list (Env * Call)) env' :
  reachable s ->
  deactivateCreditLine env id s = (s1, l, inr tt) ->
  msg_sender env' = aggregator (run tr s1) ->
  isActive (line_at (run tr s1) id) = false /\
  deactivateCreditLine env' id (run tr s1)
    = (run tr s1, [], inl (Require "Line already inactive")).
Proof.
  intros Hr H Hs'.
  apply deactivateCreditLine_inv in H as (Hs & Ha & ->).
  assert (Hwf : lines_wf (after_deactivate id s)).
  { eapply writes_lines_wf; [apply reachable_lines_wf, Hr |].
    apply writes_deactivate; eassumption. }
  assert (Hl : encryptedLines (after_deactivate id s) !! id
               = Some (deactivated (line_at s id)))
    by (simpl; apply lookup_insert_eq).
  destruct (run_keeps_record tr _ _ _ Hwf Hl) as (l' & Hl' & K).
  assert (Hin : isActive (line_at (run tr (after_deactivate id s)) id) = false).
  { rewrite (line_at_known _ _ _ Hl'). apply K. reflexivity. }
  split; [exact Hin |]. apply deactivateCreditLine_inactive; assumption.
Qed.

Lemma deactivation_is_terminal_witness :
  isActive (line_at (run [add_B; (by_enterprise, RequestAggregation 7)]
                       (after_deactivate 1 (step by_aggregator (snd add_A) s0))) 1)
    = false /\
  deactivateCreditLine by_aggregator 1
    (run [add_B; (by_enterprise, RequestAggregation 7)]
       (after_deactivate 1 (step by_aggregator (snd add_A) s0)))
  = (run [add_B; (by_enterprise, RequestAggregation 7)]
       (after_deactivate 1 (step by_aggregator (snd add_A) s0)), [],
     inl (Require "Line already inactive")).
Proof.
  assert (R : reachable (step by_aggregator (snd add_A) s0))
    by apply reachable_step, reachable_s0.
  assert (D : deactivateCreditLine by_aggregator 1
                (step by_aggregator (snd add_A) s0)
              = (after_deactivate 1 (step by_aggregator (snd add_A) s0), [],
                 inr tt))
    by (apply deactivateCreditLine_ok; reflexivity).
  exact (deactivation_is_terminal by_aggregator 1 _ _ _
           [add_B; (by_enterprise, RequestAggregation 7)] by_aggregator
           R D eq_refl).
Defined.

(** X4. A successful [addEncryptedCreditLine] files the new record under
    the next id: [lineCount] grows by one, one [CreditLineAdded] event
    carries the new id and the bank, the record holds the two ciphertexts
    as given, and [getCreditLineInfo] for the new id, called by the
    enterprise, returns the bank, the block timestamp of the call and
    [true]. *)
Theorem add_then_info {F : FHE} env b a u (s s1 : Storage) l env' :
  addEncryptedCreditLine env b a u s = (s1, l, inr tt) ->
  msg_sender env' = enterprise s1 ->
  lineCount s1 = lineCount s + 1 /\
  l = [CreditLineAdded (lineCount s1) b] /\
  lineId (line_at s1 (lineCount s1)) = lineCount s1 /\
  encryptedAmount (line_at s1 (lineCount s1)) = a /\
  encryptedUtilized (line_at s1 (lineCount s1)) = u /\
  getCreditLineInfo env' (lineCount s1) s1
    = (s1, [], inr (b, block_timestamp env, true)).
Proof.
  intros H He. pose proof H as H0.
  apply addEncryptedCreditLine_inv in H0 as (Hs & Hc & ->).
  rewrite addEncryptedCreditLine_ok in H by assumption.
  inversion H; subst. simpl lineCount.
  rewrite getCreditLineInfo_ok by exact He.
  rewrite after_add_line_at. simpl. auto 10.
Qed.

Lemma add_then_info_witness :
  lineCount (after_add by_aggregator 13 700 10 s_pending) = 3 /\
  getCreditLineInfo by_enterprise 3 (after_add by_aggregator 13 700 10 s_pending)
    = (after_add by_aggregator 13 700 10 s_pending, [],
       inr (13, 1700000000, true)).
Proof.
  assert (A : addEncryptedCreditLine by_aggregator 13 700 10 s_pending
              = (after_add by_aggregator 13 700 10 s_pending,
                 [CreditLineAdded (lineCount s_pending + 1) 13], inr tt)).
  { apply addEncryptedCreditLine_ok; [reflexivity |].
    apply small_counter_fits. change (lineCount s_pending) with 2. lia. }
  destruct (add_then_info (F := PlainFHE) by_aggregator 13 700 10 s_pending
              _ _ by_enterprise
              A eq_refl) as (H1 & _ & _ & _ & _ & H6).
  split; [exact H1 | exact H6].
Defined.

(** X5. [getCreditLineInfo] never fails for a missing record: called by
    the enterprise in a reachable state with an id outside 1 to
    [lineCount] it returns (0, 0, false); with an id inside that range it
    returns the bank, timestamp and activity flag of the stored record. *)
Theorem info_of_missing_and_stored {F : FHE} env id (s : Storage) :
  reachable s ->
  msg_sender env = enterprise s ->
  (~ 1 <= id <= lineCount s ->
     getCreditLineInfo env id s = (s, [], inr (0, 0, false))) /\
  (1 <= id <= lineCount s ->
     exists l, encryptedLines s !! id = Some l /\
       getCreditLineInfo env id s
         = (s, [], inr (bankAddress l, timestamp l, isActive l))).
Proof.
  intros Hr He. destruct (reachable_lines_wf s Hr) as (_ & Hdom & _).
  rewrite getCreditLineInfo_ok by exact He. split; intros Hid.
  - assert (Hn : encryptedLines s !! id = None).
    { apply eq_None_not_Some. intros H. apply Hdom in H. contradiction. }
    unfold line_at. rewrite Hn. reflexivity.
  - apply Hdom in Hid as [l Hl]. exists l. split; [exact Hl |].
    rewrite (line_at_known _ _ _ Hl). reflexivity.
Qed.

Lemma info_of_missing_and_stored_witness :
  getCreditLineInfo by_enterprise 0 s_pending = (s_pending, [], inr (0, 0, false)) /\
  getCreditLineInfo by_enterprise 3 s_pending = (s_pending, [], inr (0, 0, false)) /\
  exists l, encryptedLines s_pending !! 2 = Some l /\
    getCreditLineInfo by_enterprise 2 s_pending
      = (s_pending, [], inr (bankAddress l, timestamp l, isActive l)).
Proof.
  split; [| split].
  - apply (info_of_missing_and_stored by_enterprise 0 s_pending
             reachable_s_pending eq_refl).
    change (lineCount s_pending) with 2. lia.
  - apply (info_of_missing_and_stored by_enterprise 3 s_pending
             reachable_s_pending eq_refl).
    change (lineCount s_pending) with 2. lia.
  - apply (info_of_missing_and_stored by_enterprise 2 s_pending
             reachable_s_pending eq_refl).
    change (lineCount s_pending) with 2. lia.
Defined.

(** X6. The line counter is checked: when [lineCount] is the largest
    [uint256], [addEncryptedCreditLine] by the aggregator fails with the
    arithmetic panic 0x11 and writes nothing; below that it succeeds. *)
Theorem add_at_counter_limit {F : FHE} env b a u (s : Storage) :
  msg_sender env = aggregator s ->
  (lineCount s >= MAX_UINT256 ->
     addEncryptedCreditLine env b a u s = (s, [], inl (Panic 17))) /\
  (lineCount s < MAX_UINT256 ->
     addEncryptedCreditLine env b a u s
       = (after_add env b a u s, [CreditLineAdded (lineCount s + 1) b], inr tt)).
Proof.
  intros Hs. split; intros Hc.
  - apply addEncryptedCreditLine_overflow; [exact Hs | lia].
  - apply addEncryptedCreditLine_ok; [exact Hs | lia].
Qed.

Lemma add_at_counter_limit_witness :
  addEncryptedCreditLine by_aggregator 13 700 10 (set_lineCount MAX_UINT256 s0)
    = (set_lineCount MAX_UINT256 s0, [], inl (Panic 17)) /\
  addEncryptedCreditLine by_aggregator 13 700 10 (set_lineCount (MAX_UINT256 - 1) s0)
    = (after_add by_aggregator 13 700 10 (set_lineCount (MAX_UINT256 - 1) s0),
       [CreditLineAdded (MAX_UINT256 - 1 + 1) 13], inr tt).
Proof.
  split.
  - apply (add_at_counter_limit (F := PlainFHE) by_aggregator 13 700 10
             (set_lineCount MAX_UINT256 s0) eq_refl).
    simpl. lia.
  - apply (add_at_counter_limit (F := PlainFHE) by_aggregator 13 700 10
             (set_lineCount (MAX_UINT256 - 1) s0) eq_refl).
    simpl. lia.
Defined.

(** *** Roles *)

Section Roles.
Context {F : FHE}.

Lemma writes_aggregator env c s s' : writes env s c s' -> aggregator s' = aggregator s.
Proof. intros H. destruct H; reflexivity. Qed.

Lemma step_aggregator env c s : aggregator (step env c s) = aggregator s.
Proof.
  destruct (step_writes env c s) as [-> | H]; [reflexivity |].
  eapply writes_aggregator, H.
Qed.

Lemma run_aggregator tr : forall s, aggregator (run tr s) = aggregator s.
Proof.
  induction tr as [| [env c] tr IH]; intros s; simpl; [reflexivity |].
  rewrite IH. apply step_aggregator.
Qed.

Lemma onlyEnterprise_accepts env s :
  msg_sender env = enterprise s -> onlyEnterprise env s = (s, [], inr tt).
Proof.
  intros H. unfold onlyEnterprise, bind, gets, require.
  rewrite (Zeqb_self _ _ H). reflexivity.
Qed.

End Roles.

(** X7. The aggregator is fixed at deployment: it is the deployer, and no
    sequence of calls changes it (no function writes [aggregator]). *)
Theorem aggregator_is_the_deployer {F : FHE} env e (tr : list (Env * Call)) :
  aggregator (run tr (deploy env e)) = msg_sender env.
Proof. rewrite run_aggregator. reflexivity. Qed.

(** X8. The enterprise address changes only through
    [transferEnterpriseOwnership] called by the current enterprise: a step
    either keeps [enterprise], or it is such a call and [enterprise]
    becomes the address passed. *)
Theorem enterprise_changes_only_by_transfer {F : FHE} env c (s : Storage) :
  enterprise (step env c s) = enterprise s \/
  exists e, c = TransferEnterpriseOwnership e /\
            msg_sender env = enterprise s /\
            enterprise (step env c s) = e.
Proof.
  destruct (step_writes env c s) as [-> | H]; [left; reflexivity |].
  revert H. generalize (step env c s). intros s' H.
  destruct H; try (left; reflexivity).
  right. exists e. auto.
Qed.

(** X9. A successful [transferEnterpriseOwnership] hands the role over at
    once and changes nothing else: the ledger, the published result, the
    request table and the aggregator are as before; the new address passes
    the enterprise gate (it can read the result), and the previous one, if
    different, is rejected with "Enterprise only". *)
Theorem transfer_hands_over_the_role {F : FHE} env e (s s1 : Storage) l :
  transferEnterpriseOwnership env e s = (s1, l, inr tt) ->
  enterprise s1 = e /\ s1 = set_enterprise e s /\ l = [] /\
  (forall env', msg_sender env' = e ->
     getAggregationResult env' s1
       = (s1, [], inr (totalAvailable (aggregatedResult s),
                       totalUtilized (aggregatedResult s),
                       isRevealed (aggregatedResult s)))) /\
  (msg_sender env <> e ->
     getAggregationResult env s1 = (s1, [], inl (Require "Enterprise only")) /\
     (forall o, requestAggregation env o s1
                  = (s1, [], inl (Require "Enterprise only"))) /\
     (forall e', transferEnterpriseOwnership env e' s1
                   = (s1, [], inl (Require "Enterprise only")))).
Proof.
  intros H. pose proof H as H0.
  apply transferEnterpriseOwnership_inv in H0 as (Hs & ->).
  rewrite transferEnterpriseOwnership_ok in H by exact Hs.
  inversion H; subst.
  split; [reflexivity | split; [reflexivity | split; [reflexivity | split]]].
  - intros env' He. rewrite getAggregationResult_ok by exact He. reflexivity.
  - intros Hne.
    pose proof (onlyEnterprise_rejects env (set_enterprise e s) Hne) as R.
    split; [| split]; intros; apply bind_failure, R.
Qed.

Lemma transfer_hands_over_the_role_witness :
  getAggregationResult by_stranger (set_enterprise 3003 s_published)
    = (set_enterprise 3003 s_published, [], inr (800, 150, true)) /\
  getAggregationResult by_enterprise (set_enterprise 3003 s_published)
    = (set_enterprise 3003 s_published, [], inl (Require "Enterprise only")).
Proof.
  assert (T : transferEnterpriseOwnership by_enterprise 3003 s_published
              = (set_enterprise 3003 s_published, [], inr tt))
    by (apply transferEnterpriseOwnership_ok; reflexivity).
  destruct (transfer_hands_over_the_role by_enterprise 3003 s_published _ _ T)
    as (_ & _ & _ & Hnew & Hold).
  split.
  - apply (Hnew by_stranger eq_refl).
  - apply Hold. intros E. discriminate E.
Defined.

(** X10. Ledger calls and reveal calls do not touch each other's state:
    [addEncryptedCreditLine] and [deactivateCreditLine] leave the published
    result, the request table and both roles as they are; every other call
    leaves [lineCount], the records and both accumulators as they are. *)
Theorem ledger_and_reveal_are_separate {F : FHE} env c (s : Storage) :
  match c with
  | AddEncryptedCreditLine _ _ _ | DeactivateCreditLine _ =>
      aggregatedResult (step env c s) = aggregatedResult s /\
      requestToAggregationId (step env c s) = requestToAggregationId s /\
      aggregator (step env c s) = aggregator s /\
      enterprise (step env c s) = enterprise s
  | _ =>
      lineCount (step env c s) = lineCount s /\
      encryptedLines (step env c s) = encryptedLines s /\
      encryptedTotalAvailable (step env c s) = encryptedTotalAvailable s /\
      encryptedTotalUtilized (step env c s) = encryptedTotalUtilized s
  end.
Proof.
  destruct (step_writes env c s) as [-> | H].
  - destruct c; auto.
  - revert H. generalize (step env c s). intros s' H.
    destruct H; simpl; auto.
Qed.

(** *** The request table and the callback *)

Section Requests.
Context {F : FHE}.

Lemma handleAggregationResult_unknown r ct pf s :
  request_at s r <> 1 ->
  handleAggregationResult r ct pf s = (s, [], inl (Require "Invalid request")).
Proof. intros H. unfold_exec. rewrite (Zeqb_other _ _ H). reflexivity. Qed.

Lemma request_at_set_request_inv o r s :
  request_at (set_request o 1 s) r = 1 -> o = r \/ request_at s r = 1.
Proof.
  unfold request_at, set_request. simpl. intros H.
  destruct (decide (o = r)) as [E | Hne]; [left; exact E |].
  right. rewrite lookup_insert_ne in H by exact Hne. exact H.
Qed.

(** A registered request id comes from a [requestAggregation] call. *)
Lemma step_request_origin env c s r :
  request_at (step env c s) r = 1 ->
  request_at s r = 1 \/ c = RequestAggregation r.
Proof.
  destruct (step_writes env c s) as [-> | H]; [auto |].
  revert H. generalize (step env c s). intros s' H Hr.
  destruct H; try (left; exact Hr).
  apply request_at_set_request_inv in Hr as [-> | Hr]; auto.
Qed.

Lemma run_request_origin tr : forall s r,
  request_at (run tr s) r = 1 ->
  request_at s r = 1 \/ exists env, In (env, RequestAggregation r) tr.
Proof.
  induction tr as [| [env c] tr IH]; intros s r H; simpl in *; [auto |].
  apply IH in H as [H | [env' Hin]]; [| right; eauto].
  apply step_request_origin in H as [H | ->]; [auto | right; eauto].
Qed.

(** The request table holds 0 or 1, and a result is only published when
    some request is registered. *)
Definition requests_wf (s : Storage) : Prop :=
  (forall r, request_at s r = 0 \/ request_at s r = 1) /\
  (isRevealed (aggregatedResult s) = true -> exists r, request_at s r = 1).

Lemma reachable_requests_wf s : reachable s -> requests_wf s.
Proof.
  apply reachable_ind_writes.
  - intros env e. split; [intros r; left; reflexivity | discriminate].
  - intros env c s0 s' _ [H01 Hpub] Hw.
    destruct Hw as [| o Hs Hr | r ct pf a u rest H1 | |]; try (split; assumption).
    + split.
      * intros r. destruct (decide (o = r)) as [<- | Hne].
        -- right. apply request_at_set_request.
        -- unfold request_at, set_request. simpl.
           rewrite lookup_insert_ne by exact Hne. apply H01.
      * intros _. exists o. apply request_at_set_request.
    + split; [exact H01 |]. intros _. exists r. exact H1.
Qed.

End Requests.

(** X11. A callback for a request id that [requestAggregation] was never
    called with is rejected: after any calls since deployment among which
    there is no [requestAggregation] that received this id from the
    oracle, [handleAggregationResult] fails with "Invalid request",
    whatever the cleartexts and the proof. *)
Theorem unrequested_callback_is_rejected {F : FHE} env0 e
    (tr : list (Env * Call)) r ct pf :
  (forall env, ~ In (env, RequestAggregation r) tr) ->
  handleAggregationResult r ct pf (run tr (deploy env0 e))
    = (run tr (deploy env0 e), [], inl (Require "Invalid request")).
Proof.
  intros Hno. apply handleAggregationResult_unknown. intros H.
  apply run_request_origin in H as [H | [env Hin]].
  - discriminate H.
  - exact (Hno env Hin).
Qed.

Lemma unrequested_callback_is_rejected_witness :
  handleAggregationResult 8 cleartexts_800_150 (plain_sign 8 cleartexts_800_150)
    (run [add_A; add_B; (by_enterprise, RequestAggregation 7)]
       (deploy by_aggregator enterprise0))
  = (run [add_A; add_B; (by_enterprise, RequestAggregation 7)]
       (deploy by_aggregator enterprise0), [],
     inl (Require "Invalid request")).
Proof.
  apply (unrequested_callback_is_rejected by_aggregator enterprise0
           [add_A; add_B; (by_enterprise, RequestAggregation 7)] 8).
  intros env [H | [H | [H | []]]]; inversion H.
Defined.

(** X12. In every reachable state each entry of [requestToAggregationId]
    is 0 or 1, and a published result implies that some request id is
    registered: nothing is ever revealed without a prior successful
    [requestAggregation]. *)
Theorem reveal_needs_a_request {F : FHE} (s : Storage) :
  reachable s ->
  (forall r, request_at s r = 0 \/ request_at s r = 1) /\
  (isRevealed (aggregatedResult s) = true -> exists r, request_at s r = 1).
Proof. intros H. exact (reachable_requests_wf s H). Qed.

Lemma reveal_needs_a_request_witness :
  isRevealed (aggregatedResult s_published) = true /\
  exists r, request_at s_published r = 1.
Proof.
  split; [reflexivity |].
  apply (reveal_needs_a_request s_published reachable_s_published).
  reflexivity.
Defined.

(** *** The cleartext decoder *)

Lemma byte_val_range b : 0 <= byte_val b <= 255.
Proof.
  unfold byte_val. pose proof (Byte.to_N_bounded b). lia.
Qed.

Lemma be_value_from_nonneg (bs : list Byte.byte) : forall acc,
  0 <= acc -> 0 <= fold_left (fun a b => a * 256 + byte_val b) bs acc.
Proof.
  induction bs as [| b bs IH]; intros acc H; simpl; [exact H |].
  apply IH. pose proof (byte_val_range b). lia.
Qed.

Lemma mload_nonneg bs off : 0 <= mload bs off.
Proof. unfold mload, be_value. apply be_value_from_nonneg. lia. Qed.

(** What a successful decoding says about its input. *)
Lemma abi_decode_uint32_array_inv data l :
  abi_decode_uint32_array data = Some l ->
  let offset := mload data 0 in
  let len := mload data offset in
  offset + 32 + len * 32 <= Z.of_nat (length data) /\
  l = map (fun i => mload data (offset + 32 + 32 * Z.of_nat i))
        (seq 0 (Z.to_nat len)) /\
  Forall (fun v => 0 <= v <= MAX_UINT32) l.
Proof.
  unfold abi_decode_uint32_array. cbv zeta. intros H.
  repeat match type of H with
         | (if ?b then _ else _) = _ => destruct b eqn:?; [try discriminate |]
         end; try discriminate.
  all: repeat match type of H with
         | (if ?b then _ else _) = _ => destruct b eqn:?; try discriminate
         end.
  inversion H; subst. clear H.
  match goal with
  | Hg : (_ + _ * 32 >? _) = false |- _ =>
      rewrite Z.gtb_ltb in Hg; apply Z.ltb_ge in Hg; rename Hg into Hend
  end.
  match goal with
  | Hf : forallb _ _ = true |- _ => rename Hf into Hall
  end.
  split; [exact Hend | split; [reflexivity |]].
  apply Forall_forall. intros v Hv.
  rewrite forallb_forall in Hall.
  split.
  - apply list_elem_of_In, in_map_iff in Hv as (i & <- & _). apply mload_nonneg.
  - apply Z.leb_le, Hall, list_elem_of_In, Hv.
Qed.

Lemma abi_decode_uint32_array_length data l :
  abi_decode_uint32_array data = Some l ->
  32 + 32 * Z.of_nat (length l) <= Z.of_nat (length data).
Proof.
  intros H. apply abi_decode_uint32_array_inv in H. cbv zeta in H.
  destruct H as (Hend & -> & _).
  rewrite length_map, length_seq.
  pose proof (mload_nonneg data 0).
  pose proof (mload_nonneg data (mload data 0)). lia.
Qed.

Section Published.
Context {F : FHE}.

Definition result_in_range (s : Storage) : Prop :=
  0 <= totalAvailable (aggregatedResult s) <= MAX_UINT32 /\
  0 <= totalUtilized (aggregatedResult s) <= MAX_UINT32.

Lemma reachable_result_in_range s : reachable s -> result_in_range s.
Proof.
  apply reachable_ind_writes.
  - intros env e. split; simpl; (split; [lia | vm_compute; discriminate]).
  - intros env c s0 s' _ Hin Hw.
    destruct Hw as [| | r ct pf a u rest H1 H2 H3 H4 | |]; try exact Hin.
    apply abi_decode_uint32_array_inv in H4. cbv zeta in H4.
    destruct H4 as (_ & _ & Hall).
    inversion Hall as [| ? ? Ha Hrest]; subst.
    inversion Hrest as [| ? ? Hu _]; subst.
    split; assumption.
Qed.

End Published.

(** X13. The published totals are genuine [uint32] values: in every
    reachable state [totalAvailable] and [totalUtilized] lie between 0 and
    2^32 - 1, because the decoder rejects cleartext words that do not fit
    32 bits. *)
Theorem published_totals_fit_uint32 {F : FHE} (s : Storage) :
  reachable s ->
  0 <= totalAvailable (aggregatedResult s) <= MAX_UINT32 /\
  0 <= totalUtilized (aggregatedResult s) <= MAX_UINT32.
Proof. intros H. exact (reachable_result_in_range s H). Qed.

Lemma published_totals_fit_uint32_witness :
  0 <= totalAvailable (aggregatedResult s_published) <= MAX_UINT32 /\
  0 <= totalUtilized (aggregatedResult s_published) <= MAX_UINT32.
Proof.
  exact (published_totals_fit_uint32 s_published reachable_s_published).
Defined.

(** X14. Cleartexts shorter than 96 bytes never publish a result: a
    [uint32[]] with the two elements the callback reads needs a head word,
    a length word and two element words beyond the array offset, so
    [handleAggregationResult] fails on anything shorter, whatever the
    request id and the proof, and writes nothing. *)
Theorem short_cleartexts_never_publish {F : FHE} r (ct pf : list Byte.byte)
    (s : Storage) :
  Z.of_nat (length ct) < 96 ->
  exists e, handleAggregationResult r ct pf s = (s, [], inl e).
Proof.
  intros Hshort.
  destruct (handleAggregationResult r ct pf s) as [[s' l] [e | []]] eqn:H.
  - exists e.
    destruct (dispatch_failure {| msg_sender := 0; block_timestamp := 0 |}
                (HandleAggregationResult r ct pf) s s' l e H) as [-> ->].
    reflexivity.
  - exfalso. apply handleAggregationResult_inv in H
      as (a & u & rest & _ & _ & _ & Hd & _).
    apply abi_decode_uint32_array_length in Hd. simpl length in Hd. lia.
Qed.

Lemma short_cleartexts_never_publish_witness :
  exists e,
    handleAggregationResult 7 words_800_150 (plain_sign 7 words_800_150) s_pending
      = (s_pending, [], inl e).
Proof.
  apply (short_cleartexts_never_publish 7 words_800_150
           (plain_sign 7 words_800_150) s_pending).
  reflexivity.
Defined.

(** *** Folding a line in and out again *)

(** X15. Under a faithful capability, adding a line and then deactivating
    it leaves the decrypted accumulators where they were: in a reachable
    state, after [addEncryptedCreditLine] followed by
    [deactivateCreditLine] of the new id, both accumulators decrypt to
    the same values as before, the new record is kept but inactive, and
    its id is used up. *)
Theorem add_then_deactivate_restores_totals {F : FHE} {HF : FaithfulFHE F}
    env env' b a u (s : Storage) :
  reachable s ->
  msg_sender env = aggregator s ->
  msg_sender env' = aggregator s ->
  lineCount s < MAX_UINT256 ->
  let s2 := run [ (env, AddEncryptedCreditLine b a u);
                  (env', DeactivateCreditLine (lineCount s + 1)) ] s in
  decrypt (encryptedTotalAvailable s2) = decrypt (encryptedTotalAvailable s) /\
  decrypt (encryptedTotalUtilized s2) = decrypt (encryptedTotalUtilized s) /\
  isActive (line_at s2 (lineCount s + 1)) = false /\
  lineCount s2 = lineCount s + 1.
Proof.
  intros Hr Hs Hs' Hc. cbn [run].
  assert (E1 : step env (AddEncryptedCreditLine b a u) s = after_add env b a u s).
  { eapply step_success. simpl dispatch.
    apply addEncryptedCreditLine_ok; [exact Hs | lia]. }
  rewrite E1.
  assert (E2 : step env' (DeactivateCreditLine (lineCount s + 1))
                 (after_add env b a u s)
               = after_deactivate (lineCount s + 1) (after_add env b a u s)).
  { eapply step_success. simpl dispatch.
    apply deactivateCreditLine_ok; [exact Hs' |].
    rewrite after_add_line_at. reflexivity. }
  rewrite E2.
  destruct (reachable_ledger s Hr) as [_ [Ha Hu]].
  unfold after_deactivate.
  rewrite after_add_line_at. unfold line_at. simpl.
  rewrite lookup_insert_eq. simpl.
  rewrite !decrypt_sub, !decrypt_add, !Zminus_mod_idemp_l.
  replace (decrypt (encryptedTotalAvailable s) + decrypt a - decrypt a)
    with (decrypt (encryptedTotalAvailable s)) by lia.
  replace (decrypt (encryptedTotalUtilized s) + decrypt u - decrypt u)
    with (decrypt (encryptedTotalUtilized s)) by lia.
  rewrite Ha, Hu, !Zmod_mod. auto.
Qed.

Lemma add_then_deactivate_restores_totals_witness :
  decrypt (encryptedTotalAvailable
             (run [ (by_aggregator, AddEncryptedCreditLine 13 4294967295 10);
                    (by_aggregator, DeactivateCreditLine (lineCount s_pending + 1)) ]
                s_pending))
    = decrypt (encryptedTotalAvailable s_pending) /\
  decrypt (encryptedTotalUtilized
             (run [ (by_aggregator, AddEncryptedCreditLine 13 4294967295 10);
                    (by_aggregator, DeactivateCreditLine (lineCount s_pending + 1)) ]
                s_pending))
    = decrypt (encryptedTotalUtilized s_pending).
Proof.
  pose proof (add_then_deactivate_restores_totals (F := PlainFHE)
                by_aggregator by_aggregator 13 4294967295 10 s_pending
                reachable_s_pending eq_refl eq_refl eq_refl) as H.
  cbv zeta in H. destruct H as (H1 & H2 & _).
  split; [exact H1 | exact H2].
Defined.

(** *** Events *)

(** X16. What a successful call emits: [addEncryptedCreditLine] one
    [CreditLineAdded] with the new id and the bank; [requestAggregation]
    the decryption request for the two current accumulators followed by
    [AggregationRequested]; [handleAggregationResult] one
    [AggregationCompleted] with the first two decoded values; and
    [deactivateCreditLine], [transferEnterpriseOwnership] and the two reads
    nothing. *)
Theorem events_of_a_successful_call {F : FHE} env c (s s' : Storage) l :
  dispatch env c s = (s', l, inr tt) ->
  l = match c with
      | AddEncryptedCreditLine b _ _ => [CreditLineAdded (lineCount s + 1) b]
      | RequestAggregation _ => [decryption_request s; AggregationRequested]
      | HandleAggregationResult _ ct _ =>
          match abi_decode_uint32_array ct with
          | Some (a :: u :: _) => [AggregationCompleted a u]
          | _ => []
          end
      | _ => []
      end.
Proof.
  intros H. destruct c as [b a u | o | r ct pf | | id | id | e]; simpl in H.
  - pose proof H as H0. apply addEncryptedCreditLine_inv in H0 as (Hs & Hc & _).
    rewrite addEncryptedCreditLine_ok in H by assumption. inversion H. reflexivity.
  - pose proof H as H0. apply requestAggregation_inv in H0 as (Hs & Hr & _).
    rewrite requestAggregation_ok in H by assumption. inversion H. reflexivity.
  - apply handleAggregationResult_inv in H
      as (a & u & rest & _ & _ & _ & -> & _ & ->). reflexivity.
  - exec_cases. inversion H. reflexivity.
  - pose proof H as H0. apply deactivateCreditLine_inv in H0 as (Hs & Ha & _).
    rewrite deactivateCreditLine_ok in H by assumption. inversion H. reflexivity.
  - exec_cases. inversion H. reflexivity.
  - pose proof H as H0. apply transferEnterpriseOwnership_inv in H0 as (Hs & _).
    rewrite transferEnterpriseOwnership_ok in H by assumption.
    inversion H. reflexivity.
Qed.

Lemma events_of_a_successful_call_witness :
  dispatch by_aggregator (AddEncryptedCreditLine 13 700 10) s_pending
    = (after_add by_aggregator 13 700 10 s_pending, [CreditLineAdded 3 13], inr tt) /\
  [CreditLineAdded 3 13] = [CreditLineAdded (lineCount s_pending + 1) 13].
Proof.
  assert (D : dispatch by_aggregator (AddEncryptedCreditLine 13 700 10) s_pending
              = (after_add by_aggregator 13 700 10 s_pending,
                 [CreditLineAdded (lineCount s_pending + 1) 13], inr tt)).
  { apply addEncryptedCreditLine_ok; [reflexivity |].
    apply small_counter_fits. change (lineCount s_pending) with 2. lia. }
  change (lineCount s_pending + 1) with 3 in D at 1.
  split; [exact D |].
  exact (events_of_a_successful_call _ _ _ _ _ D).
Defined.

(** *** Encoding and decoding cleartexts *)

Lemma byte_val_byte_of v : byte_val (byte_of v) = v mod 256.
Proof.
  unfold byte_of, byte_val.
  pose proof (Z.mod_pos_bound v 256 ltac:(lia)) as Hb.
  destruct (Byte.of_N (Z.to_N (v mod 256))) as [b |] eqn:E; simpl.
  - apply Byte.to_of_N in E. rewrite E. lia.
  - apply Byte.of_N_None_iff in E. lia.
Qed.

Lemma be_value_snoc bs b : be_value (bs ++ [b]) = be_value bs * 256 + byte_val b.
Proof. unfold be_value. rewrite fold_left_app. reflexivity. Qed.

(** The [n] low bytes of [v], most significant first. *)
Definition low_bytes (n : nat) (v : Z) : list Byte.byte :=
  map (fun i => byte_of (v / 256 ^ (Z.of_nat n - 1 - Z.of_nat i))) (seq 0 n).

Lemma low_bytes_S n v :
  low_bytes (S n) v = low_bytes n (v / 256) ++ [byte_of v].
Proof.
  unfold low_bytes. rewrite seq_S, map_app. simpl. f_equal.
  - apply map_ext_in. intros i Hi. apply in_seq in Hi. f_equal.
    replace (Z.of_nat (S n) - 1 - Z.of_nat i)
      with (Z.succ (Z.of_nat n - 1 - Z.of_nat i)) by lia.
    rewrite Z.pow_succ_r by lia.
    rewrite Z.div_div by lia. reflexivity.
  - replace (Z.of_nat (S n) - 1 - Z.of_nat n) with 0 by lia.
    rewrite Z.div_1_r. reflexivity.
Qed.

Lemma be_value_low_bytes n : forall v,
  be_value (low_bytes n v) = v mod 256 ^ Z.of_nat n.
Proof.
  induction n as [| n IH]; intros v.
  - simpl. rewrite Z.mod_1_r. reflexivity.
  - rewrite low_bytes_S, be_value_snoc, IH, byte_val_byte_of.
    rewrite Nat2Z.inj_succ, Z.pow_succ_r by lia.
    rewrite (Z.rem_mul_r v 256 (256 ^ Z.of_nat n)) by lia. lia.
Qed.

Lemma word_bytes_low v : word_bytes v = low_bytes 32 v.
Proof. reflexivity. Qed.

Lemma length_word_bytes v : length (word_bytes v) = 32%nat.
Proof. unfold word_bytes. rewrite length_map, length_seq. reflexivity. Qed.

Lemma be_value_word_bytes v :
  0 <= v <= MAX_UINT256 -> be_value (word_bytes v) = v.
Proof.
  intros H. rewrite word_bytes_low, be_value_low_bytes.
  apply Z.mod_small. unfold MAX_UINT256 in H.
  change (256 ^ Z.of_nat 32) with (2 ^ 256). lia.
Qed.

(** Reading back a word that sits right after [pre]. *)
Lemma mload_word pre v post :
  0 <= v <= MAX_UINT256 ->
  mload (pre ++ word_bytes v ++ post) (Z.of_nat (length pre)) = v.
Proof.
  intros H. unfold mload. rewrite Nat2Z.id, drop_app_length.
  rewrite take_app_length' by (symmetry; apply length_word_bytes).
  apply be_value_word_bytes, H.
Qed.

Lemma uint32_fits_word v : 0 <= v <= MAX_UINT32 -> 0 <= v <= MAX_UINT256.
Proof.
  intros H. assert (MAX_UINT32 <= MAX_UINT256) by (vm_compute; discriminate). lia.
Qed.

(** Reading back the element words that follow [pre]. *)
Lemma mload_elements (l : list Z) :
  Forall (fun v => 0 <= v <= MAX_UINT32) l ->
  forall pre,
    map (fun i => mload (pre ++ concat (map word_bytes l))
                    (Z.of_nat (length pre) + 32 * Z.of_nat i))
      (seq 0 (length l)) = l.
Proof.
  induction 1 as [| a l Ha Hl IH]; intros pre; [reflexivity |].
  change (length (a :: l)) with (S (length l)).
  change (concat (map word_bytes (a :: l)))
    with (word_bytes a ++ concat (map word_bytes l)).
  rewrite <- cons_seq, <- seq_shift, map_cons, map_map. f_equal.
  - rewrite Z.mul_0_r, Z.add_0_r. apply mload_word, uint32_fits_word, Ha.
  - etransitivity; [| apply (IH (pre ++ word_bytes a))].
    apply map_ext. intros i. rewrite <- app_assoc. f_equal.
    rewrite length_app, length_word_bytes. lia.
Qed.

Lemma length_concat_words (l : list Z) :
  length (concat (map word_bytes l)) = (32 * length l)%nat.
Proof.
  induction l as [| a l IH]; [reflexivity |].
  change (concat (map word_bytes (a :: l)))
    with (word_bytes a ++ concat (map word_bytes l)).
  rewrite length_app, length_word_bytes, IH. simpl length. lia.
Qed.

Lemma abi_decode_encode (l : list Z) :
  Forall (fun v => 0 <= v <= MAX_UINT32) l ->
  Z.of_nat (length l) <= MAX_UINT64 ->
  abi_decode_uint32_array (abi_encode_uint32_array l) = Some l.
Proof.
  intros Hall Hlen.
  set (n := Z.of_nat (length l)) in *.
  assert (Hn : 0 <= n <= MAX_UINT256).
  { assert (MAX_UINT64 <= MAX_UINT256) by (vm_compute; discriminate).
    unfold n. lia. }
  assert (H32 : 0 <= 32 <= MAX_UINT256) by (split; vm_compute; discriminate).
  assert (Hsize : Z.of_nat (length (abi_encode_uint32_array l)) = 64 + 32 * n).
  { unfold abi_encode_uint32_array.
    rewrite !length_app, !length_word_bytes, length_concat_words. unfold n. lia. }
  assert (Hoff : mload (abi_encode_uint32_array l) 0 = 32).
  { exact (mload_word [] 32 _ H32). }
  assert (Hcount : mload (abi_encode_uint32_array l) 32 = n).
  { unfold abi_encode_uint32_array. rewrite app_assoc.
    rewrite <- (app_nil_r (concat (map word_bytes l))).
    rewrite <- app_assoc.
    exact (mload_word (word_bytes 32) n _ Hn). }
  assert (Helems :
    map (fun i => mload (abi_encode_uint32_array l) (32 + 32 + 32 * Z.of_nat i))
      (seq 0 (Z.to_nat n)) = l).
  { unfold n. rewrite Nat2Z.id. unfold abi_encode_uint32_array.
    rewrite app_assoc.
    exact (mload_elements l Hall (word_bytes 32 ++ word_bytes (Z.of_nat (length l)))). }
  unfold abi_decode_uint32_array. cbv zeta.
  rewrite Hsize, Hoff, Hcount, Helems.
  assert (M64 : MAX_UINT64 = 18446744073709551615) by reflexivity.
  replace (64 + 32 * n <? 32) with false by (symmetry; apply Z.ltb_ge; lia).
  replace (32 >? MAX_UINT64) with false by reflexivity.
  replace (32 + 31 <? 64 + 32 * n) with true by (symmetry; apply Z.ltb_lt; lia).
  rewrite (Zgtb_le n MAX_UINT64 Hlen).
  rewrite (Zgtb_le (32 + 32 + n * 32) (64 + 32 * n)) by lia.
  simpl negb. cbv iota.
  replace (forallb (fun v => v <=? MAX_UINT32) l) with true; [reflexivity |].
  symmetry. apply forallb_forall. intros v Hv. apply Z.leb_le.
  rewrite Forall_forall in Hall. apply list_elem_of_In, Hall in Hv. lia.
Qed.

(** X17. Decoding inverts encoding: for every list of [uint32] values
    (at most 2^64 - 1 of them), [abi.decode(., (uint32[]))] applied to
    the ABI encoding of the list returns the list.  A callback that
    carries the encoding of at least two values, with a proof that
    verifies, for a registered request and before any reveal, therefore
    publishes exactly the first two values. *)
Theorem encoded_cleartexts_are_published {F : FHE} r pf (s : Storage)
    (a u : Z) (rest : list Z) :
  Forall (fun v => 0 <= v <= MAX_UINT32) (a :: u :: rest) ->
  Z.of_nat (length (a :: u :: rest)) <= MAX_UINT64 ->
  request_at s r = 1 ->
  isRevealed (aggregatedResult s) = false ->
  checkSignatures r (abi_encode_uint32_array (a :: u :: rest)) pf = true ->
  abi_decode_uint32_array (abi_encode_uint32_array (a :: u :: rest))
    = Some (a :: u :: rest) /\
  handleAggregationResult r (abi_encode_uint32_array (a :: u :: rest)) pf s
    = (set_aggregatedResult (published a u) s, [AggregationCompleted a u], inr tt).
Proof.
  intros Hall Hlen H1 H2 H3.
  pose proof (abi_decode_encode _ Hall Hlen) as Hd.
  split; [exact Hd |].
  eapply handleAggregationResult_ok; eassumption.
Qed.

Lemma encoded_cleartexts_are_published_witness :
  abi_decode_uint32_array (abi_encode_uint32_array [800; 150; 4294967295])
    = Some [800; 150; 4294967295] /\
  handleAggregationResult 7 (abi_encode_uint32_array [800; 150; 4294967295])
    (plain_sign 7 (abi_encode_uint32_array [800; 150; 4294967295])) s_pending
  = (set_aggregatedResult (published 800 150) s_pending,
     [AggregationCompleted 800 150], inr tt).
Proof.
  apply (encoded_cleartexts_are_published (F := PlainFHE) 7
           (plain_sign 7 (abi_encode_uint32_array [800; 150; 4294967295]))
           s_pending 800 150 [4294967295]).
  - repeat constructor; vm_compute; discriminate.
  - vm_compute. discriminate.
  - reflexivity.
  - reflexivity.
  - reflexivity.
Defined.
